(** * prng-chacha: a sharded pool of ChaCha20 generators

    A shallow embedding of [config.go] and [prng.go] of
    github.com/sixafter/prng-chacha, and the properties its specification
    states about them.

    Conventions.
    - Go's [int], [uint64], [uint32] and [time.Duration] are [Z]; where the
      source computes on them the 64-bit wrap-around is written out
      ([uint64], [int64] below).
    - [[]byte] is [list Byte.byte]; a slice with spare capacity (the scratch
      buffer [zero]) is a backing array together with a length.
    - Pointers to [chacha20.Cipher] are addresses into a heap held by the
      world, because the rekey worker overwrites the object behind the old
      pointer.
    - Everything outside the package is an external collaborator gathered in
      [Env]: the ChaCha20 keystream, crypto/rand, math/rand/v2 and
      runtime.GOMAXPROCS.
    - A goroutine, a sleep, an atomic store are recorded as events of a
      trace, in program order.
    - A call runs from its first statement to its return without another
      goroutine in between; the rekey worker a [Read] starts is a run of
      [asyncRekey] of its own. What other goroutines can leave behind (a
      pool whose generator is borrowed) appears as a state a call starts
      from.
    - The keystream of a cipher is taken as unbounded: the block counter of
      the library is not modelled. *)

From Stdlib Require Import ZArith List Bool Lia.
From Stdlib.Strings Require Import Byte.
Import ListNotations.
Local Open Scope Z_scope.

(** ** Machine integers *)

(** Conversion to [uint64]: the value modulo 2^64. *)
Definition uint64 (z : Z) : Z := z mod 2 ^ 64.

(** Conversion to [int64] (and to [time.Duration]): two's complement. *)
Definition int64 (z : Z) : Z := (z + 2 ^ 63) mod 2 ^ 64 - 2 ^ 63.

(** ** Bytes *)

Definition byte : Type := Byte.byte.

Definition xor_bits
  (a b : bool * (bool * (bool * (bool * (bool * (bool * (bool * bool)))))))
  : bool * (bool * (bool * (bool * (bool * (bool * (bool * bool)))))) :=
  let '(a0, (a1, (a2, (a3, (a4, (a5, (a6, a7))))))) := a in
  let '(b0, (b1, (b2, (b3, (b4, (b5, (b6, b7))))))) := b in
  (xorb a0 b0, (xorb a1 b1, (xorb a2 b2, (xorb a3 b3,
  (xorb a4 b4, (xorb a5 b5, (xorb a6 b6, xorb a7 b7))))))).

(** [x ^ y] on bytes. *)
Definition bxor (x y : byte) : byte :=
  Byte.of_bits (xor_bits (Byte.to_bits x) (Byte.to_bits y)).

Definition byte_to_Z (b : byte) : Z := Z.of_N (Byte.to_N b).

(** [make([]byte, n)]: [n] zero bytes. *)
Definition make_bytes (n : nat) : list byte := repeat x00 n.

Definition all_zero (bs : list byte) : Prop := Forall (fun b => b = x00) bs.

(** [binary.BigEndian.Uint64]: the first byte is the most significant. *)
Definition BigEndian_Uint64 (bs : list byte) : Z :=
  fold_left (fun acc b => acc * 256 + byte_to_Z b) bs 0.

(** ** config.go *)

Definition Millisecond : Z := 1000000.
Definition Second : Z := 1000000000.

Record Config : Type := mkConfig {
  MaxBytesPerKey : Z;        (* uint64 *)
  MaxInitRetries : Z;        (* int *)
  MaxRekeyAttempts : Z;      (* int *)
  MaxRekeyBackoff : Z;       (* time.Duration, nanoseconds *)
  RekeyBackoff : Z;          (* time.Duration, nanoseconds *)
  EnableKeyRotation : bool;
  UseZeroBuffer : bool;
  DefaultBufferSize : Z;     (* int *)
  Shards : Z                 (* int *)
}.

Definition maxRekeyAttempts : Z := 5.
Definition rekeyBackoff : Z := 100 * Millisecond.
Definition maxRekeyBackoff : Z := 2 * Second.
Definition maxBytesPerKey : Z := 2 ^ 30.
Definition defaultBufferSize : Z := 64.

(** [DefaultConfig]; [gomaxprocs] is the value of [runtime.GOMAXPROCS(0)]. *)
Definition DefaultConfig (gomaxprocs : Z) : Config :=
  {| MaxBytesPerKey := maxBytesPerKey;
     MaxInitRetries := 3;
     MaxRekeyAttempts := maxRekeyAttempts;
     MaxRekeyBackoff := maxRekeyBackoff;
     RekeyBackoff := rekeyBackoff;
     EnableKeyRotation := false;
     UseZeroBuffer := false;
     DefaultBufferSize := defaultBufferSize;
     Shards := gomaxprocs |}.

(** [type Option]: a function that updates the Config it is pointed at;
    here the update it performs. *)
Definition Option : Type := Config -> Config.

Definition WithMaxBytesPerKey (n : Z) : Option := fun cfg =>
  {| MaxBytesPerKey := n;
     MaxInitRetries := MaxInitRetries cfg;
     MaxRekeyAttempts := MaxRekeyAttempts cfg;
     MaxRekeyBackoff := MaxRekeyBackoff cfg;
     RekeyBackoff := RekeyBackoff cfg;
     EnableKeyRotation := EnableKeyRotation cfg;
     UseZeroBuffer := UseZeroBuffer cfg;
     DefaultBufferSize := DefaultBufferSize cfg;
     Shards := Shards cfg |}.

Definition WithMaxInitRetries (r : Z) : Option := fun cfg =>
  {| MaxBytesPerKey := MaxBytesPerKey cfg;
     MaxInitRetries := r;
     MaxRekeyAttempts := MaxRekeyAttempts cfg;
     MaxRekeyBackoff := MaxRekeyBackoff cfg;
     RekeyBackoff := RekeyBackoff cfg;
     EnableKeyRotation := EnableKeyRotation cfg;
     UseZeroBuffer := UseZeroBuffer cfg;
     DefaultBufferSize := DefaultBufferSize cfg;
     Shards := Shards cfg |}.

Definition WithMaxRekeyAttempts (r : Z) : Option := fun cfg =>
  {| MaxBytesPerKey := MaxBytesPerKey cfg;
     MaxInitRetries := MaxInitRetries cfg;
     MaxRekeyAttempts := r;
     MaxRekeyBackoff := MaxRekeyBackoff cfg;
     RekeyBackoff := RekeyBackoff cfg;
     EnableKeyRotation := EnableKeyRotation cfg;
     UseZeroBuffer := UseZeroBuffer cfg;
     DefaultBufferSize := DefaultBufferSize cfg;
     Shards := Shards cfg |}.

Definition WithMaxRekeyBackoff (d : Z) : Option := fun cfg =>
  {| MaxBytesPerKey := MaxBytesPerKey cfg;
     MaxInitRetries := MaxInitRetries cfg;
     MaxRekeyAttempts := MaxRekeyAttempts cfg;
     MaxRekeyBackoff := d;
     RekeyBackoff := RekeyBackoff cfg;
     EnableKeyRotation := EnableKeyRotation cfg;
     UseZeroBuffer := UseZeroBuffer cfg;
     DefaultBufferSize := DefaultBufferSize cfg;
     Shards := Shards cfg |}.

Definition WithRekeyBackoff (d : Z) : Option := fun cfg =>
  {| MaxBytesPerKey := MaxBytesPerKey cfg;
     MaxInitRetries := MaxInitRetries cfg;
     MaxRekeyAttempts := MaxRekeyAttempts cfg;
     MaxRekeyBackoff := MaxRekeyBackoff cfg;
     RekeyBackoff := d;
     EnableKeyRotation := EnableKeyRotation cfg;
     UseZeroBuffer := UseZeroBuffer cfg;
     DefaultBufferSize := DefaultBufferSize cfg;
     Shards := Shards cfg |}.

Definition WithEnableKeyRotation (enable : bool) : Option := fun cfg =>
  {| MaxBytesPerKey := MaxBytesPerKey cfg;
     MaxInitRetries := MaxInitRetries cfg;
     MaxRekeyAttempts := MaxRekeyAttempts cfg;
     MaxRekeyBackoff := MaxRekeyBackoff cfg;
     RekeyBackoff := RekeyBackoff cfg;
     EnableKeyRotation := enable;
     UseZeroBuffer := UseZeroBuffer cfg;
     DefaultBufferSize := DefaultBufferSize cfg;
     Shards := Shards cfg |}.

Definition WithZeroBuffer (enable : bool) : Option := fun cfg =>
  {| MaxBytesPerKey := MaxBytesPerKey cfg;
     MaxInitRetries := MaxInitRetries cfg;
     MaxRekeyAttempts := MaxRekeyAttempts cfg;
     MaxRekeyBackoff := MaxRekeyBackoff cfg;
     RekeyBackoff := RekeyBackoff cfg;
     EnableKeyRotation := EnableKeyRotation cfg;
     UseZeroBuffer := enable;
     DefaultBufferSize := DefaultBufferSize cfg;
     Shards := Shards cfg |}.

Definition WithDefaultBufferSize (n : Z) : Option := fun cfg =>
  {| MaxBytesPerKey := MaxBytesPerKey cfg;
     MaxInitRetries := MaxInitRetries cfg;
     MaxRekeyAttempts := MaxRekeyAttempts cfg;
     MaxRekeyBackoff := MaxRekeyBackoff cfg;
     RekeyBackoff := RekeyBackoff cfg;
     EnableKeyRotation := EnableKeyRotation cfg;
     UseZeroBuffer := UseZeroBuffer cfg;
     DefaultBufferSize := n;
     Shards := Shards cfg |}.

Definition WithShards (n : Z) : Option := fun cfg =>
  {| MaxBytesPerKey := MaxBytesPerKey cfg;
     MaxInitRetries := MaxInitRetries cfg;
     MaxRekeyAttempts := MaxRekeyAttempts cfg;
     MaxRekeyBackoff := MaxRekeyBackoff cfg;
     RekeyBackoff := RekeyBackoff cfg;
     EnableKeyRotation := EnableKeyRotation cfg;
     UseZeroBuffer := UseZeroBuffer cfg;
     DefaultBufferSize := DefaultBufferSize cfg;
     Shards := n |}.

(** The [for _, opt := range opts { opt(&cfg) }] loop. *)
Definition apply_options (opts : list Option) (cfg : Config) : Config :=
  fold_left (fun c opt => opt c) opts cfg.

(** ** Outcomes of a call *)

(** The run-time panics the package can raise. *)
Inductive Panic : Type :=
| DivideByZero              (* integer divide by zero *)
| NilInterfaceConversion    (* x.(T) on a nil interface value *)
| NilPointerDereference     (* *p on a nil pointer *)
| IndexOutOfRange           (* s[i] outside the slice *)
| OutputSmallerThanInput    (* chacha20: output smaller than input *)
| PoolInitFailed (retries : Z). (* the panic of the default reader's factory *)

Inductive Outcome (A : Type) : Type :=
| Returned (a : A)
| Panicked (e : Panic).
Arguments Returned {A} a.
Arguments Panicked {A} e.

(** The values of type [error] the package builds. *)
Inductive error : Type :=
| ErrPoolInit (retries : Z). (* prng pool initialization failed after %d retries *)

(** ** The world *)

(** What decides the output of a [chacha20.Cipher]: the key and nonce it was
    built from and how many keystream bytes it has produced. *)
Record Cipher : Type := mkCipher {
  cipher_key : list byte;
  cipher_nonce : list byte;
  cipher_pos : nat
}.

Definition KeySize : nat := 32.
Definition NonceSizeX : nat := 24.

(** The zero value [chacha20.Cipher{}]. *)
Definition zero_Cipher : Cipher :=
  {| cipher_key := make_bytes KeySize;
     cipher_nonce := make_bytes NonceSizeX;
     cipher_pos := 0 |}.

Definition zeroed (c : Cipher) : Prop :=
  all_zero (cipher_key c) /\ all_zero (cipher_nonce c) /\ cipher_pos c = 0%nat.

(** Effects in program order. *)
Inductive Event : Type :=
| EvRandRead (n : nat) (r : option (list byte))
    (* a full read of n bytes from crypto/rand and what it delivered *)
| EvNewCipher (ok : bool)      (* newCipher returned, with or without error *)
| EvStoreCipher (c : nat)      (* p.cipher.Store(c) *)
| EvStoreUsage (v : Z)         (* atomic.StoreUint64(&p.usage, v) *)
| EvZeroCipher (c : nat)       (* *c = chacha20.Cipher{} *)
| EvStoreRekeying (v : Z)      (* atomic.StoreUint32(&p.rekeying, v) *)
| EvSleep (d : Z)              (* time.Sleep(d) *)
| EvGo.                        (* go p.asyncRekey() *)

(** The collaborators outside the package. *)
Record Env : Type := mkEnv {
  (* golang.org/x/crypto/chacha20: byte i of the keystream of (key, nonce) *)
  keystream : list byte -> list byte -> nat -> byte;
  (* crypto/rand.Reader: the bytes its t-th read has available, None when
     the read fails *)
  rand_Reader : nat -> option (list byte);
  (* math/rand/v2: the raw value behind the t-th call of IntN *)
  mrand_source : nat -> Z;
  (* runtime.GOMAXPROCS(0), at least 1 *)
  GOMAXPROCS : positive
}.

Record World : Type := mkWorld {
  rand_reads : nat;          (* reads of crypto/rand so far *)
  mrand_calls : nat;         (* calls of mrand.IntN so far *)
  heap : nat -> Cipher;      (* the chacha20.Cipher objects, by address *)
  heap_next : nat;           (* the next free address *)
  trace : list Event
}.

Definition log (e : Event) (w : World) : World :=
  {| rand_reads := rand_reads w; mrand_calls := mrand_calls w;
     heap := heap w; heap_next := heap_next w;
     trace := trace w ++ [e] |}.

Definition heap_set (a : nat) (c : Cipher) (w : World) : World :=
  {| rand_reads := rand_reads w; mrand_calls := mrand_calls w;
     heap := fun x => if Nat.eqb x a then c else heap w x;
     heap_next := heap_next w;
     trace := trace w |}.

(** [new(chacha20.Cipher)]: a fresh address. *)
Definition heap_alloc (c : Cipher) (w : World) : nat * World :=
  (heap_next w,
   {| rand_reads := rand_reads w; mrand_calls := mrand_calls w;
      heap := fun x => if Nat.eqb x (heap_next w) then c else heap w x;
      heap_next := S (heap_next w);
      trace := trace w |}).

(** [time.Sleep(d)]. *)
Definition time_Sleep (d : Z) (w : World) : World := log (EvSleep d) w.

(** ** The generator *)

(** A byte slice with spare capacity: the backing array from the slice's
    first element on, and the slice's length. [cap] is the array's length. *)
Record Slice : Type := mkSlice {
  slice_array : list byte;
  slice_len : nat
}.

Definition cap (s : Slice) : nat := length (slice_array s).

(** The bytes [s[0:len(s)]]. *)
Definition slice_bytes (s : Slice) : list byte :=
  firstn (slice_len s) (slice_array s).

(** [make([]byte, n)]. *)
Definition make_slice (n : nat) : Slice :=
  {| slice_array := make_bytes n; slice_len := n |}.

(** [s[:n]], for [n <= cap(s)]. *)
Definition reslice (s : Slice) (n : nat) : Slice :=
  {| slice_array := slice_array s; slice_len := n |}.

Record prng : Type := mkPrng {
  prng_config : Config;
  prng_cipher : nat;         (* atomic.Value holding a *chacha20.Cipher *)
  prng_zero : Slice;
  prng_usage : Z;            (* uint64 *)
  prng_rekeying : Z          (* uint32 *)
}.

Definition set_cipher (c : nat) (p : prng) : prng :=
  {| prng_config := prng_config p; prng_cipher := c;
     prng_zero := prng_zero p; prng_usage := prng_usage p;
     prng_rekeying := prng_rekeying p |}.

Definition set_zero (z : Slice) (p : prng) : prng :=
  {| prng_config := prng_config p; prng_cipher := prng_cipher p;
     prng_zero := z; prng_usage := prng_usage p;
     prng_rekeying := prng_rekeying p |}.

Definition set_usage (u : Z) (p : prng) : prng :=
  {| prng_config := prng_config p; prng_cipher := prng_cipher p;
     prng_zero := prng_zero p; prng_usage := u;
     prng_rekeying := prng_rekeying p |}.

Definition set_rekeying (r : Z) (p : prng) : prng :=
  {| prng_config := prng_config p; prng_cipher := prng_cipher p;
     prng_zero := prng_zero p; prng_usage := prng_usage p;
     prng_rekeying := r |}.

(** [p.cipher.Store(c)]. *)
Definition cipher_Store (c : nat) (p : prng) (w : World) : prng * World :=
  (set_cipher c p, log (EvStoreCipher c) w).

(** [atomic.StoreUint64(&p.usage, v)]. *)
Definition StoreUint64_usage (v : Z) (p : prng) (w : World) : prng * World :=
  (set_usage v p, log (EvStoreUsage v) w).

(** [atomic.StoreUint32(&p.rekeying, v)]. *)
Definition StoreUint32_rekeying (v : Z) (p : prng) (w : World)
  : prng * World :=
  (set_rekeying v p, log (EvStoreRekeying v) w).

(** [atomic.AddUint64(&p.usage, delta)]. *)
Definition AddUint64_usage (delta : Z) (p : prng) : prng :=
  set_usage (uint64 (prng_usage p + delta)) p.

(** [atomic.CompareAndSwapUint32(&p.rekeying, old, new)]. *)
Definition CompareAndSwapUint32_rekeying (old new : Z) (p : prng)
  : bool * prng :=
  if prng_rekeying p =? old then (true, set_rekeying new p) else (false, p).

(** [src[i] ^ ks[i]] for every [i]. *)
Fixpoint xor_bytes (src ks : list byte) : list byte :=
  match src, ks with
  | s :: src', k :: ks' => bxor s k :: xor_bytes src' ks'
  | _, _ => []
  end.

Section Program.

Variable E : Env.

(** The next [n] keystream bytes of a cipher. *)
Definition next_keystream (c : Cipher) (n : nat) : list byte :=
  map (keystream E (cipher_key c) (cipher_nonce c)) (seq (cipher_pos c) n).

(** [c.XORKeyStream(dst, src)]: [dst[i] = src[i] ^ keystream] for the
    [len(src)] first bytes of [dst]; panics when [dst] is the shorter. The
    result is the new content of [dst]. *)
Definition XORKeyStream (c : nat) (dst src : list byte) (w : World)
  : Outcome (list byte) * World :=
  if (length dst <? length src)%nat then (Panicked OutputSmallerThanInput, w)
  else
    let st := heap w c in
    let out := xor_bytes src (next_keystream st (length src)) in
    (Returned (out ++ skipn (length src) dst),
     heap_set c {| cipher_key := cipher_key st;
                   cipher_nonce := cipher_nonce st;
                   cipher_pos := cipher_pos st + length src |} w).

(** [io.ReadFull(rand.Reader, buf)] with [len(buf) = n]: a short read is an
    error. [rand.Read] is the same call. *)
Definition rand_ReadFull (n : nat) (w : World) : option (list byte) * World :=
  let r := match rand_Reader E (rand_reads w) with
           | Some bs => if (n <=? length bs)%nat then Some (firstn n bs)
                        else None
           | None => None
           end in
  (r, {| rand_reads := S (rand_reads w); mrand_calls := mrand_calls w;
         heap := heap w; heap_next := heap_next w;
         trace := trace w ++ [EvRandRead n r] |}).

(** [chacha20.NewUnauthenticatedCipher(key, nonce)], for the extended nonce:
    an error for a wrong key or nonce size. *)
Definition NewUnauthenticatedCipher (key nonce : list byte) : option Cipher :=
  if (length key =? KeySize)%nat && (length nonce =? NonceSizeX)%nat
  then Some {| cipher_key := key; cipher_nonce := nonce; cipher_pos := 0 |}
  else None.

(** [newCipher]: the address of the new cipher, or None for an error. The
    key and nonce buffers are locals that are zeroed before the return and
    seen by nobody else. *)
Definition newCipher (w : World) : option nat * World :=
  match rand_ReadFull KeySize w with
  | (None, w1) => (None, log (EvNewCipher false) w1)
  | (Some key, w1) =>
    match rand_ReadFull NonceSizeX w1 with
    | (None, w2) => (None, log (EvNewCipher false) w2)
    | (Some nonce, w2) =>
      match NewUnauthenticatedCipher key nonce with
      | None => (None, log (EvNewCipher false) w2)
      | Some c =>
        let '(stream, w3) := heap_alloc c w2 in
        (Some stream, log (EvNewCipher true) w3)
      end
    end
  end.

(** [newPRNG]. *)
Definition newPRNG (config : Config) (w : World) : option prng * World :=
  match newCipher w with
  | (None, w1) => (None, w1)
  | (Some stream, w1) =>
    let zero :=
      if UseZeroBuffer config && (0 <? DefaultBufferSize config)
      then make_slice (Z.to_nat (DefaultBufferSize config))
      else make_slice 0 in
    let p := {| prng_config := config; prng_cipher := stream;
                prng_zero := zero; prng_usage := 0; prng_rekeying := 0 |} in
    let '(p1, w2) := cipher_Store stream p w1 in
    (Some p1, w2)
  end.

(** [Read] of a generator: the result, the generator, the new content of [b] and
    the world after the call. *)
Definition prng_Read (p : prng) (b : list byte) (w : World)
  : Outcome (nat * option error) * prng * list byte * World :=
  let n := length b in
  if (n =? 0)%nat then (Returned (0%nat, None), p, b, w)
  else
    let stream := prng_cipher p in
    let '(x, p1, w1) :=
      if UseZeroBuffer (prng_config p) then
        let zero := if (cap (prng_zero p) <? n)%nat then make_slice n
                    else reslice (prng_zero p) n in
        let p1 := set_zero zero p in
        let '(x, w1) := XORKeyStream stream b (slice_bytes zero) w in
        (x, p1, w1)
      else
        let '(x, w1) := XORKeyStream stream b b w in
        (x, p, w1) in
    match x with
    | Panicked e => (Panicked e, p1, b, w1)
    | Returned b1 =>
      if EnableKeyRotation (prng_config p1) then
        let p2 := AddUint64_usage (uint64 (Z.of_nat n)) p1 in
        if MaxBytesPerKey (prng_config p2) <? prng_usage p2 then
          let '(swapped, p3) := CompareAndSwapUint32_rekeying 0 1 p2 in
          if swapped then (Returned (n, None), p3, b1, log EvGo w1)
          else (Returned (n, None), p3, b1, w1)
        else (Returned (n, None), p2, b1, w1)
      else (Returned (n, None), p1, b1, w1)
    end.

(** ** The rekey worker *)

(** How a run of the worker ends: by the [return] after a rotation, by
    leaving the loop, or by a panic. *)
Inductive Exit : Type :=
| Rotated
| Exhausted
| Crashed (e : Panic).

(** The loop of [asyncRekey] with [n] iterations left. *)
Fixpoint rekey_loop (n : nat) (base maxBackoff : Z) (p : prng) (w : World)
  : Exit * prng * World :=
  match n with
  | O => (Exhausted, p, w)
  | S n' =>
    let old := prng_cipher p in
    match newCipher w with
    | (Some stream, w1) =>
      let '(p1, w2) := cipher_Store stream p w1 in
      let '(p2, w3) := StoreUint64_usage 0 p1 w2 in
      let w4 := log (EvZeroCipher old) (heap_set old zero_Cipher w3) in
      (Rotated, p2, w4)
    | (None, w1) =>
      let '(r, w2) := rand_ReadFull 8 w1 in
      let slept :=
        match r with
        | Some b =>
          let rnd := BigEndian_Uint64 b in
          if uint64 base =? 0 then None
          else
            let delay := int64 (base + int64 (rnd mod uint64 base)) in
            Some (time_Sleep delay w2)
        | None => Some (time_Sleep base w2)
        end in
      match slept with
      | None => (Crashed DivideByZero, p, w2)
      | Some w3 =>
        let base1 := int64 (base * 2) in
        let base2 := if maxBackoff <? base1 then maxBackoff else base1 in
        rekey_loop n' base2 maxBackoff p w3
      end
    end
  end.

(** [asyncRekey]. The deferred store runs on every way out of the body. *)
Definition asyncRekey (p : prng) (w : World) : Exit * prng * World :=
  let base := RekeyBackoff (prng_config p) in
  let maxBackoff :=
    if MaxRekeyBackoff (prng_config p) =? 0 then maxRekeyBackoff
    else MaxRekeyBackoff (prng_config p) in
  let '(e, p1, w1) :=
    rekey_loop (Z.to_nat (MaxRekeyAttempts (prng_config p)))
               base maxBackoff p w in
  let '(p2, w2) := StoreUint32_rekeying 0 p1 w1 in
  (e, p2, w2).

(** ** Pools and the reader *)

(** A [sync.Pool] of generators: the idle instances and the [New] function.
    [New] yields an interface value, which may be nil. *)
Record Pool : Type := mkPool {
  pool_idle : list prng;
  pool_New : World -> Outcome (option prng) * World
}.

(** [pool.Get()]: an idle instance when there is one, else what [New]
    gives. *)
Definition Pool_Get (pl : Pool) (w : World)
  : Outcome (option prng) * Pool * World :=
  match pool_idle pl with
  | p :: rest =>
    (Returned (Some p), {| pool_idle := rest; pool_New := pool_New pl |}, w)
  | [] => let '(r, w1) := pool_New pl w in (r, pl, w1)
  end.

(** [pool.Put(p)]. *)
Definition Pool_Put (pl : Pool) (p : prng) : Pool :=
  {| pool_idle := p :: pool_idle pl; pool_New := pool_New pl |}.

(** The retry loop of both [New] functions, with [n] iterations left. *)
Fixpoint init_retries (n : nat) (cfg : Config) (w : World)
  : option prng * World :=
  match n with
  | O => (None, w)
  | S n' =>
    match newPRNG cfg w with
    | (Some p, w1) => (Some p, w1)
    | (None, w1) => init_retries n' cfg w1
    end
  end.

(** [New] of the pools of [NewReader]: nil after the last retry. *)
Definition NewReader_New (cfg : Config) (w : World)
  : Outcome (option prng) * World :=
  let '(r, w1) := init_retries (Z.to_nat (MaxInitRetries cfg)) cfg w in
  (Returned r, w1).

(** [New] of the pools of [init]: a panic after the last retry. *)
Definition init_New (cfg : Config) (w : World)
  : Outcome (option prng) * World :=
  match init_retries (Z.to_nat (MaxInitRetries cfg)) cfg w with
  | (Some p, w1) => (Returned (Some p), w1)
  | (None, w1) => (Panicked (PoolInitFailed (MaxInitRetries cfg)), w1)
  end.

Record reader : Type := mkReader {
  reader_config : option Config;   (* a pointer, nil when never set *)
  reader_pools : list Pool
}.

(** [s[i] = x]. *)
Fixpoint list_set {A : Type} (l : list A) (i : nat) (x : A) : list A :=
  match l, i with
  | [], _ => []
  | _ :: t, O => x :: t
  | h :: t, S i' => h :: list_set t i' x
  end.

(** The shard loop of [NewReader], with [n] shards to go and [made] the
    pools built so far. *)
Fixpoint NewReader_pools (n : nat) (cfg : Config) (made : list Pool)
  (w : World) : Outcome (list Pool + error) * World :=
  match n with
  | O => (Returned (inl made), w)
  | S n' =>
    let pl := {| pool_idle := []; pool_New := NewReader_New cfg |} in
    match Pool_Get pl w with
    | (Panicked e, _, w1) => (Panicked e, w1)
    | (Returned None, _, w1) =>
      (Returned (inr (ErrPoolInit (MaxInitRetries cfg))), w1)
    | (Returned (Some item), pl1, w1) =>
      NewReader_pools n' cfg (made ++ [Pool_Put pl1 item]) w1
    end
  end.

(** Step 1 of [NewReader]: the options over the defaults, then the shard
    count when it is not positive. *)
Definition NewReader_config (opts : list Option) : Config :=
  let cfg := apply_options opts (DefaultConfig (Zpos (GOMAXPROCS E))) in
  if Shards cfg <=? 0 then WithShards (Zpos (GOMAXPROCS E)) cfg else cfg.

(** [NewReader]. *)
Definition NewReader (opts : list Option) (w : World)
  : Outcome (reader + error) * World :=
  let cfg := NewReader_config opts in
  match NewReader_pools (Z.to_nat (Shards cfg)) cfg [] w with
  | (Panicked e, w1) => (Panicked e, w1)
  | (Returned (inr err), w1) => (Returned (inr err), w1)
  | (Returned (inl pools), w1) =>
    (Returned (inl {| reader_config := Some cfg; reader_pools := pools |}),
     w1)
  end.

(** The shard loop of [init]. *)
Fixpoint init_pools (n : nat) (cfg : Config) (made : list Pool) (w : World)
  : Outcome (list Pool) * World :=
  match n with
  | O => (Returned made, w)
  | S n' =>
    let pl := {| pool_idle := []; pool_New := init_New cfg |} in
    match Pool_Get pl w with
    | (Panicked e, _, w1) => (Panicked e, w1)
    | (Returned None, _, w1) => (Panicked NilInterfaceConversion, w1)
    | (Returned (Some item), pl1, w1) =>
      init_pools n' cfg (made ++ [Pool_Put pl1 item]) w1
    end
  end.

(** [init]: the value stored in the package variable [Reader]. *)
Definition init (w : World) : Outcome reader * World :=
  let cfg := DefaultConfig (Zpos (GOMAXPROCS E)) in
  match init_pools (Z.to_nat (Shards cfg)) cfg [] w with
  | (Panicked e, w1) => (Panicked e, w1)
  | (Returned pools, w1) =>
    (Returned {| reader_config := None; reader_pools := pools |}, w1)
  end.

(** [Config] of a reader: [*r.config]. *)
Definition reader_Config (r : reader) : Outcome Config :=
  match reader_config r with
  | Some cfg => Returned cfg
  | None => Panicked NilPointerDereference
  end.

(** [shardIndex]: [mrand.IntN(n)], for [n > 0]. *)
Definition shardIndex (n : nat) (w : World) : nat * World :=
  (Z.to_nat (mrand_source E (mrand_calls w) mod Z.of_nat n),
   {| rand_reads := rand_reads w; mrand_calls := S (mrand_calls w);
      heap := heap w; heap_next := heap_next w; trace := trace w |}).

Definition set_pool (r : reader) (shard : nat) (pl : Pool) : reader :=
  {| reader_config := reader_config r;
     reader_pools := list_set (reader_pools r) shard pl |}.

(** [Read] of a reader: the result, the reader with its pools as the call
    leaves them, the new content of [b] and the world. *)
Definition reader_Read (r : reader) (b : list byte) (w : World)
  : Outcome (nat * option error) * reader * list byte * World :=
  if (length b =? 0)%nat then (Returned (0%nat, None), r, b, w)
  else
    let n := length (reader_pools r) in
    let '(shard, w1) := if (1 <? n)%nat then shardIndex n w else (0%nat, w) in
    match nth_error (reader_pools r) shard with
    | None => (Panicked IndexOutOfRange, r, b, w1)
    | Some pl =>
      match Pool_Get pl w1 with
      | (Panicked e, pl1, w2) => (Panicked e, set_pool r shard pl1, b, w2)
      | (Returned None, pl1, w2) =>
        (Panicked NilInterfaceConversion, set_pool r shard pl1, b, w2)
      | (Returned (Some p), pl1, w2) =>
        let '(res, p1, b1, w3) := prng_Read p b w2 in
        (res, set_pool r shard (Pool_Put pl1 p1), b1, w3)
      end
    end.

End Program.

(** ** Sample environments *)

(** A stand-in keystream: it depends on the key, the nonce and the
    position. *)
Definition sample_keystream (key nonce : list byte) (i : nat) : byte :=
  bxor (bxor (nth (i mod 32) key x00) (nth (i mod 24) nonce x00))
       (match Byte.of_nat (i mod 251 + 3) with Some b => b | None => x00 end).

(** An entropy source that always delivers: read [t] has 64 bytes. *)
Definition entropy_ok (t : nat) : option (list byte) :=
  Some (repeat (match Byte.of_nat (t mod 256) with Some b => b | None => x00
                end) 64).

(** An entropy source that always fails. *)
Definition entropy_dead (t : nat) : option (list byte) := None.

(** An entropy source that never has more than 8 bytes: key and nonce reads
    are short, the 8-byte draw of the worker succeeds. *)
Definition entropy_short (t : nat) : option (list byte) :=
  Some [x01; x23; x45; x67; x89; xab; xcd; xef].

(** An entropy source that delivers for its first [k] reads only. *)
Definition entropy_first (k : nat) (t : nat) : option (list byte) :=
  if (t <? k)%nat then entropy_ok t else None.

Definition env_of (src : nat -> option (list byte)) : Env :=
  {| keystream := sample_keystream;
     rand_Reader := src;
     mrand_source := fun t => Z.of_nat t * 7 + 3;
     GOMAXPROCS := 4%positive |}.

Definition sample_env_ok : Env := env_of entropy_ok.
Definition sample_env_dead : Env := env_of entropy_dead.
Definition sample_env_short : Env := env_of entropy_short.


(** The world at start-up. *)
Definition world0 : World :=
  {| rand_reads := 0; mrand_calls := 0;
     heap := fun _ => zero_Cipher; heap_next := 0; trace := [] |}.

(** A generator in a world where its cipher exists. *)
Definition sample_world : World :=
  {| rand_reads := 0; mrand_calls := 0;
     heap := fun a => if Nat.eqb a 0
                      then {| cipher_key := repeat x11 32;
                              cipher_nonce := repeat x22 24;
                              cipher_pos := 5 |}
                      else zero_Cipher;
     heap_next := 1; trace := [] |}.

Definition sample_prng (cfg : Config) : prng :=
  {| prng_config := cfg; prng_cipher := 0; prng_zero := make_slice 2;
     prng_usage := 60; prng_rekeying := 0 |}.

(** A generator with key rotation enabled and a threshold of 64 bytes. *)
Definition sample_rotating_prng : prng :=
  sample_prng (WithEnableKeyRotation true
                 (WithMaxBytesPerKey 64 (DefaultConfig 4))).

(** ** Vocabulary of the statements *)

(** The scratch buffer as [Read] leaves it for a request of [n] bytes. *)
Definition zero_for (p : prng) (n : nat) : Slice :=
  if (cap (prng_zero p) <? n)%nat then make_slice n
  else reslice (prng_zero p) n.

(** The cipher behind address [c] after [n] more keystream bytes. *)
Definition advance (c : nat) (n : nat) (w : World) : World :=
  heap_set c {| cipher_key := cipher_key (heap w c);
                cipher_nonce := cipher_nonce (heap w c);
                cipher_pos := cipher_pos (heap w c) + n |} w.

(** The bookkeeping of step 3 of [Read], on the generator as step 2 leaves
    it. *)
Definition track_usage (p1 : prng) (n : nat) (w1 : World) : prng * World :=
  if EnableKeyRotation (prng_config p1) then
    let p2 := AddUint64_usage (uint64 (Z.of_nat n)) p1 in
    if MaxBytesPerKey (prng_config p2) <? prng_usage p2 then
      if prng_rekeying p2 =? 0 then (set_rekeying 1 p2, log EvGo w1)
      else (p2, w1)
    else (p2, w1)
  else (p1, w1).

(** The generator with its zero-buffer switch set to [flag]. *)
Definition with_zero_buffer (flag : bool) (p : prng) : prng :=
  {| prng_config := WithZeroBuffer flag (prng_config p);
     prng_cipher := prng_cipher p; prng_zero := prng_zero p;
     prng_usage := prng_usage p; prng_rekeying := prng_rekeying p |}.

(** The shard a [Read] of the reader picks, and the world after the pick. *)
Definition pick_shard (E : Env) (r : reader) (w : World) : nat * World :=
  let n := length (reader_pools r) in
  if (1 <? n)%nat then shardIndex E n w else (0%nat, w).

(** Every pool holds an idle generator. *)
Definition pools_ready (r : reader) : Prop :=
  reader_pools r <> [] /\
  Forall (fun pl => pool_idle pl <> []) (reader_pools r).

(** The events a run added to the trace. *)
Definition new_events (w w' : World) : list Event :=
  skipn (length (trace w)) (trace w').

(** The durations slept, in order. *)
Definition sleeps (evs : list Event) : list Z :=
  flat_map (fun e => match e with EvSleep d => [d] | _ => [] end) evs.

(** The results of the 8-byte entropy draws, in order. *)
Definition draws (evs : list Event) : list (option (list byte)) :=
  flat_map (fun e => match e with
                     | EvRandRead 8 r => [r]
                     | _ => []
                     end) evs.

(** The number of calls of [newCipher]. *)
Definition attempts (evs : list Event) : nat :=
  length (flat_map (fun e => match e with
                             | EvNewCipher ok => [ok]
                             | _ => []
                             end) evs).

(** Events that store nothing: entropy reads, cipher construction, sleep. *)
Definition quiet (e : Event) : Prop :=
  match e with
  | EvRandRead _ _ | EvNewCipher _ | EvSleep _ => True
  | _ => False
  end.

(** The events of one call of [newCipher]. *)
Definition cipher_event (e : Event) : Prop :=
  match e with
  | EvRandRead n _ => n = KeySize \/ n = NonceSizeX
  | EvNewCipher _ => True
  | _ => False
  end.

(** The sleep after a failed attempt with backoff [base], given the result
    of the entropy draw. *)
Definition delay_of (base : Z) (r : option (list byte)) : Z :=
  match r with
  | Some b => base + BigEndian_Uint64 b mod base
  | None => base
  end.

(** The backoff bound the worker uses. *)
Definition effective_max (cfg : Config) : Z :=
  if MaxRekeyBackoff cfg =? 0 then maxRekeyBackoff else MaxRekeyBackoff cfg.

(** The backoff in force at the [i]-th failed attempt, counted from 0. *)
Definition backoff_at (rb M : Z) (i : nat) : Z :=
  match i with
  | O => rb
  | S _ => Z.min (rb * 2 ^ Z.of_nat i) M
  end.

(** The generator with another configuration. *)
Definition with_config (cfg : Config) (p : prng) : prng :=
  {| prng_config := cfg;
     prng_cipher := prng_cipher p; prng_zero := prng_zero p;
     prng_usage := prng_usage p; prng_rekeying := prng_rekeying p |}.

(** The backoff after one more failed attempt. *)
Definition next_backoff (maxBackoff base : Z) : Z :=
  if maxBackoff <? int64 (base * 2) then maxBackoff else int64 (base * 2).

(** The fields of [Config] and the values they take. *)
Inductive Field : Type :=
| FMaxBytesPerKey | FMaxInitRetries | FMaxRekeyAttempts | FMaxRekeyBackoff
| FRekeyBackoff | FEnableKeyRotation | FUseZeroBuffer | FDefaultBufferSize
| FShards.

Inductive Value : Type :=
| VInt (z : Z)
| VBool (b : bool).

Definition field (f : Field) (cfg : Config) : Value :=
  match f with
  | FMaxBytesPerKey => VInt (MaxBytesPerKey cfg)
  | FMaxInitRetries => VInt (MaxInitRetries cfg)
  | FMaxRekeyAttempts => VInt (MaxRekeyAttempts cfg)
  | FMaxRekeyBackoff => VInt (MaxRekeyBackoff cfg)
  | FRekeyBackoff => VInt (RekeyBackoff cfg)
  | FEnableKeyRotation => VBool (EnableKeyRotation cfg)
  | FUseZeroBuffer => VBool (UseZeroBuffer cfg)
  | FDefaultBufferSize => VInt (DefaultBufferSize cfg)
  | FShards => VInt (Shards cfg)
  end.

Definition Field_eqb (a b : Field) : bool :=
  match a, b with
  | FMaxBytesPerKey, FMaxBytesPerKey
  | FMaxInitRetries, FMaxInitRetries
  | FMaxRekeyAttempts, FMaxRekeyAttempts
  | FMaxRekeyBackoff, FMaxRekeyBackoff
  | FRekeyBackoff, FRekeyBackoff
  | FEnableKeyRotation, FEnableKeyRotation
  | FUseZeroBuffer, FUseZeroBuffer
  | FDefaultBufferSize, FDefaultBufferSize
  | FShards, FShards => true
  | _, _ => false
  end.

(** The recognized options, by name and argument. *)
Inductive Recognized : Type :=
| OptMaxBytesPerKey (n : Z)
| OptMaxInitRetries (r : Z)
| OptMaxRekeyAttempts (r : Z)
| OptMaxRekeyBackoff (d : Z)
| OptRekeyBackoff (d : Z)
| OptEnableKeyRotation (enable : bool)
| OptZeroBuffer (enable : bool)
| OptDefaultBufferSize (n : Z)
| OptShards (n : Z).

(** The [Option] value the constructor of that name returns. *)
Definition to_Option (o : Recognized) : Option :=
  match o with
  | OptMaxBytesPerKey n => WithMaxBytesPerKey n
  | OptMaxInitRetries r => WithMaxInitRetries r
  | OptMaxRekeyAttempts r => WithMaxRekeyAttempts r
  | OptMaxRekeyBackoff d => WithMaxRekeyBackoff d
  | OptRekeyBackoff d => WithRekeyBackoff d
  | OptEnableKeyRotation enable => WithEnableKeyRotation enable
  | OptZeroBuffer enable => WithZeroBuffer enable
  | OptDefaultBufferSize n => WithDefaultBufferSize n
  | OptShards n => WithShards n
  end.

(** The field an option is documented to set, and the value it is given. *)
Definition target (o : Recognized) : Field :=
  match o with
  | OptMaxBytesPerKey _ => FMaxBytesPerKey
  | OptMaxInitRetries _ => FMaxInitRetries
  | OptMaxRekeyAttempts _ => FMaxRekeyAttempts
  | OptMaxRekeyBackoff _ => FMaxRekeyBackoff
  | OptRekeyBackoff _ => FRekeyBackoff
  | OptEnableKeyRotation _ => FEnableKeyRotation
  | OptZeroBuffer _ => FUseZeroBuffer
  | OptDefaultBufferSize _ => FDefaultBufferSize
  | OptShards _ => FShards
  end.

Definition payload (o : Recognized) : Value :=
  match o with
  | OptMaxBytesPerKey n => VInt n
  | OptMaxInitRetries r => VInt r
  | OptMaxRekeyAttempts r => VInt r
  | OptMaxRekeyBackoff d => VInt d
  | OptRekeyBackoff d => VInt d
  | OptEnableKeyRotation enable => VBool enable
  | OptZeroBuffer enable => VBool enable
  | OptDefaultBufferSize n => VInt n
  | OptShards n => VInt n
  end.

(** Following the specification's words: the field-by-field image of the
    defaults with the options applied in order. Field [f] holds the
    argument of the last option that names it, and [dflt] when there is
    none. *)
Fixpoint image_field (f : Field) (os : list Recognized) (dflt : Value)
  : Value :=
  match os with
  | [] => dflt
  | o :: rest =>
    image_field f rest (if Field_eqb (target o) f then payload o else dflt)
  end.

(** Following the specification's words: the image, with a shard count
    that is not positive replaced by the logical CPU count. *)
Definition expected_field (cpus : Z) (f : Field) (os : list Recognized)
  : Value :=
  match f, image_field f os (field f (DefaultConfig cpus)) with
  | FShards, VInt n => if n <=? 0 then VInt cpus else VInt n
  | _, v => v
  end.


(** ** Helpers of the tests and benchmarks *)

(** [syncPoolGetPut] of the benchmark file: a borrow from pool 0 and its
    return. *)
Definition syncPoolGetPut (r : reader) (w : World)
  : Outcome unit * reader * World :=
  match nth_error (reader_pools r) 0 with
  | None => (Panicked IndexOutOfRange, r, w)
  | Some pl =>
    match Pool_Get pl w with
    | (Panicked e, pl1, w1) => (Panicked e, set_pool r 0 pl1, w1)
    | (Returned None, pl1, w1) =>
      (Panicked NilInterfaceConversion, set_pool r 0 pl1, w1)
    | (Returned (Some p), pl1, w1) =>
      (Returned tt, set_pool r 0 (Pool_Put pl1 p), w1)
    end
  end.

(** The byte ['0' + byte(d)]. *)
Definition digit_byte (d : Z) : byte :=
  match Byte.of_N (Z.to_N ((48 + d) mod 256)) with
  | Some b => b
  | None => x00
  end.

(** The loop of [itoa]: [pos] is the index of the last byte written into
    the 12-byte buffer, and [pos--] below 0 makes the store panic. *)
Fixpoint itoa_loop (pos : nat) (i : Z) (buf : list byte) {struct pos}
  : Outcome (nat * list byte) :=
  if 0 <? i then
    match pos with
    | O => Panicked IndexOutOfRange
    | S pos' =>
      itoa_loop pos' (Z.quot i 10)
        (list_set buf pos' (digit_byte (Z.rem i 10)))
    end
  else Returned (pos, buf).

(** [itoa] of the benchmark file; a string is its bytes. *)
Definition itoa (i : Z) : Outcome (list byte) :=
  if i =? 0 then Returned [x30]
  else
    match itoa_loop 12 i (make_bytes 12) with
    | Panicked e => Panicked e
    | Returned (pos, buf) => Returned (skipn pos buf)
    end.

(** [benchConcurrent]: the iteration counts handed to the goroutines, in
    the order they are started, for [b.N = N]. *)
Definition benchConcurrent (N goroutines : Z) : Outcome (list Z) :=
  if goroutines =? 0 then Panicked DivideByZero
  else
    let nPerG := Z.quot N goroutines in
    let rem := Z.rem N goroutines in
    Returned (map (fun i => if i <? rem then nPerG + 1 else nPerG)
                  (map Z.of_nat (seq 0 (Z.to_nat goroutines)))).

(** ** More vocabulary *)

(** Successive [Read]s of one generator, one per buffer: the outputs, the
    generator and the world at the end. *)
Fixpoint prng_Reads (E : Env) (p : prng) (bs : list (list byte)) (w : World)
  : list (list byte) * prng * World :=
  match bs with
  | [] => ([], p, w)
  | b :: rest =>
    let '(_, p1, b1, w1) := prng_Read E p b w in
    let '(outs, p2, w2) := prng_Reads E p1 rest w1 in
    (b1 :: outs, p2, w2)
  end.

(** The number of workers started. *)
Definition spawns (evs : list Event) : nat :=
  length (flat_map (fun e => match e with EvGo => [tt] | _ => [] end) evs).

(** The value a decimal string denotes. *)
Definition parse_decimal (s : list byte) : Z :=
  fold_left (fun acc b => acc * 10 + (byte_to_Z b - 48)) s 0.

Definition is_digit (b : byte) : Prop := 48 <= byte_to_Z b <= 57.

Definition sum_Z (l : list Z) : Z := fold_right Z.add 0 l.

(** The cipher addresses of the idle generators of a list of pools. *)
Definition pool_ciphers (pools : list Pool) : list nat :=
  flat_map (fun pl => map prng_cipher (pool_idle pl)) pools.

(** * Properties *)

(** ** Bytes and lists *)

Lemma bxor_x00_l (k : byte) : bxor x00 k = k.
Proof.
  unfold bxor. rewrite <- (Byte.of_bits_to_bits k) at 2. f_equal.
  destruct (Byte.to_bits k) as [a0 [a1 [a2 [a3 [a4 [a5 [a6 a7]]]]]]].
  reflexivity.
Qed.

Lemma bxor_x00_r (k : byte) : bxor k x00 = k.
Proof.
  unfold bxor. rewrite <- (Byte.of_bits_to_bits k) at 2. f_equal.
  destruct (Byte.to_bits k) as [a0 [a1 [a2 [a3 [a4 [a5 [a6 a7]]]]]]].
  simpl. now rewrite !xorb_false_r.
Qed.

Lemma all_zero_make_bytes (n : nat) : all_zero (make_bytes n).
Proof.
  unfold all_zero, make_bytes. apply Forall_forall. intros x Hx.
  now apply repeat_spec in Hx.
Qed.

Lemma all_zero_firstn (n : nat) (bs : list byte) :
  all_zero bs -> all_zero (firstn n bs).
Proof.
  unfold all_zero. revert n. induction bs as [|b bs IH]; intros [|n] H; simpl;
    try constructor.
  - now inversion H.
  - apply IH. now inversion H.
Qed.

Lemma xor_bytes_length (src ks : list byte) :
  length (xor_bytes src ks) = Nat.min (length src) (length ks).
Proof.
  revert ks. induction src as [|s src IH]; intros [|k ks]; simpl; auto.
Qed.

(** XOR against zeros gives the other operand back. *)
Lemma xor_bytes_zero_l (src ks : list byte) :
  all_zero src -> xor_bytes src ks = firstn (length src) ks.
Proof.
  revert ks. induction src as [|s src IH]; intros [|k ks] H; simpl; auto.
  inversion H as [|? ? Hs Hrest]; subst.
  rewrite bxor_x00_l. f_equal. now apply IH.
Qed.

Lemma xor_bytes_zero_r (src ks : list byte) :
  all_zero ks -> xor_bytes src ks = firstn (length ks) src.
Proof.
  revert ks. induction src as [|s src IH]; intros [|k ks] H; simpl; auto.
  inversion H as [|? ? Hs Hrest]; subst.
  rewrite bxor_x00_r. f_equal. now apply IH.
Qed.

Section ReadFacts.

Variable E : Env.

Lemma next_keystream_length (c : Cipher) (n : nat) :
  length (next_keystream E c n) = n.
Proof. unfold next_keystream. now rewrite length_map, length_seq. Qed.

Lemma zero_for_length (p : prng) (n : nat) :
  length (slice_bytes (zero_for p n)) = n.
Proof.
  unfold zero_for, slice_bytes, cap.
  destruct (length (slice_array (prng_zero p)) <? n)%nat eqn:Hc; simpl.
  - unfold make_bytes. rewrite length_firstn, repeat_length. lia.
  - apply Nat.ltb_ge in Hc. rewrite length_firstn. lia.
Qed.

Lemma zero_for_all_zero (p : prng) (n : nat) :
  all_zero (slice_array (prng_zero p)) ->
  all_zero (slice_array (zero_for p n)).
Proof.
  intros H. unfold zero_for.
  destruct (cap (prng_zero p) <? n)%nat; simpl; auto using all_zero_make_bytes.
Qed.

Lemma XORKeyStream_fits (c : nat) (dst src : list byte) (w : World) :
  length src = length dst ->
  XORKeyStream E c dst src w =
  (Returned (xor_bytes src (next_keystream E (heap w c) (length dst))),
   advance c (length dst) w).
Proof.
  intros Hlen. unfold XORKeyStream, advance. rewrite Hlen.
  rewrite Nat.ltb_irrefl. rewrite skipn_all, app_nil_r. reflexivity.
Qed.

(** [Read] on a buffer that is not empty, with the panic of [XORKeyStream]
    ruled out. *)
Lemma prng_Read_nonempty (p : prng) (b : list byte) (w : World) :
  b <> [] ->
  prng_Read E p b w =
  let n := length b in
  let zmode := UseZeroBuffer (prng_config p) in
  let p1 := if zmode then set_zero (zero_for p n) p else p in
  let src := if zmode then slice_bytes (zero_for p n) else b in
  let b1 := xor_bytes src (next_keystream E (heap w (prng_cipher p)) n) in
  let '(p2, w2) := track_usage p1 n (advance (prng_cipher p) n w) in
  (Returned (n, None), p2, b1, w2).
Proof.
  intros Hb. unfold prng_Read, track_usage.
  destruct b as [|b0 b']; [congruence|].
  set (bb := b0 :: b'). change (length bb =? 0)%nat with false. cbv iota.
  fold (zero_for p (length bb)).
  destruct (UseZeroBuffer (prng_config p)) eqn:Hz.
  - rewrite (XORKeyStream_fits _ bb _ w (zero_for_length p (length bb))).
    cbv zeta. change (prng_config (set_zero (zero_for p (length bb)) p))
      with (prng_config p).
    destruct (EnableKeyRotation (prng_config p)); [|reflexivity].
    unfold CompareAndSwapUint32_rekeying.
    match goal with |- context [MaxBytesPerKey ?c <? ?u] =>
      destruct (MaxBytesPerKey c <? u) end; [|reflexivity].
    match goal with |- context [prng_rekeying ?q =? 0] =>
      destruct (prng_rekeying q =? 0) end; reflexivity.
  - rewrite (XORKeyStream_fits _ bb bb w eq_refl). cbv zeta.
    destruct (EnableKeyRotation (prng_config p)); [|reflexivity].
    unfold CompareAndSwapUint32_rekeying.
    match goal with |- context [MaxBytesPerKey ?c <? ?u] =>
      destruct (MaxBytesPerKey c <? u) end; [|reflexivity].
    match goal with |- context [prng_rekeying ?q =? 0] =>
      destruct (prng_rekeying q =? 0) end; reflexivity.
Qed.

End ReadFacts.

(** ** The generator's Read *)

Section GeneratorRead.

Variable E : Env.



Lemma track_usage_heap (p1 : prng) (n : nat) (w1 : World) :
  heap (snd (track_usage p1 n w1)) = heap w1.
Proof.
  unfold track_usage.
  repeat match goal with |- context [if ?c then _ else _] => destruct c end;
    reflexivity.
Qed.

Lemma track_usage_zero (p1 : prng) (n : nat) (w1 : World) :
  prng_zero (fst (track_usage p1 n w1)) = prng_zero p1.
Proof.
  unfold track_usage.
  repeat match goal with |- context [if ?c then _ else _] => destruct c end;
    reflexivity.
Qed.

Lemma track_usage_config (p1 : prng) (n : nat) (w1 : World) :
  prng_config (fst (track_usage p1 n w1)) = prng_config p1.
Proof.
  unfold track_usage.
  repeat match goal with |- context [if ?c then _ else _] => destruct c end;
    reflexivity.
Qed.

Lemma track_usage_cipher (p1 : prng) (n : nat) (w1 : World) :
  prng_cipher (fst (track_usage p1 n w1)) = prng_cipher p1.
Proof.
  unfold track_usage.
  repeat match goal with |- context [if ?c then _ else _] => destruct c end;
    reflexivity.
Qed.

(** The bytes a [Read] leaves in the buffer. *)
Lemma prng_Read_output (p : prng) (b : list byte) (w : World) :
  snd (fst (prng_Read E p b w)) =
  xor_bytes (if UseZeroBuffer (prng_config p)
             then slice_bytes (zero_for p (length b)) else b)
            (next_keystream E (heap w (prng_cipher p)) (length b)).
Proof.
  destruct b as [|b0 b'].
  - simpl. now destruct (UseZeroBuffer (prng_config p)).
  - rewrite prng_Read_nonempty by discriminate. cbv zeta.
    destruct (track_usage _ _ _). reflexivity.
Qed.

Lemma prng_Read_zero (p : prng) (b : list byte) (w : World) :
  prng_zero (snd (fst (fst (prng_Read E p b w)))) =
  if UseZeroBuffer (prng_config p) && negb (length b =? 0)%nat
  then zero_for p (length b) else prng_zero p.
Proof.
  destruct b as [|b0 b'].
  - simpl. now rewrite andb_false_r.
  - rewrite prng_Read_nonempty by discriminate. cbv zeta.
    match goal with |- context [track_usage ?a ?n ?x] =>
      pose proof (track_usage_zero a n x) as Hz;
      destruct (track_usage a n x) end.
    simpl in *. rewrite Hz, andb_true_r.
    now destruct (UseZeroBuffer (prng_config p)).
Qed.

Lemma prng_Read_config (p : prng) (b : list byte) (w : World) :
  prng_config (snd (fst (fst (prng_Read E p b w)))) = prng_config p.
Proof.
  destruct b as [|b0 b']; [reflexivity|].
  rewrite prng_Read_nonempty by discriminate. cbv zeta.
  match goal with |- context [track_usage ?a ?n ?x] =>
    pose proof (track_usage_config a n x) as Hz;
    destruct (track_usage a n x) end.
  simpl in *. rewrite Hz. now destruct (UseZeroBuffer (prng_config p)).
Qed.

Lemma prng_Read_heap (p : prng) (b : list byte) (w : World) :
  b <> [] ->
  heap (snd (prng_Read E p b w)) =
  heap (advance (prng_cipher p) (length b) w).
Proof.
  intros Hb. rewrite prng_Read_nonempty by assumption. cbv zeta.
  match goal with |- context [track_usage ?a ?n ?x] =>
    pose proof (track_usage_heap a n x) as Hz;
    destruct (track_usage a n x) end.
  exact Hz.
Qed.

End GeneratorRead.

Lemma newPRNG_zero (E : Env) (cfg : Config) (w : World) (p : prng)
  (w' : World) :
  newPRNG E cfg w = (Some p, w') ->
  slice_array (prng_zero p) =
  make_bytes (if UseZeroBuffer cfg && (0 <? DefaultBufferSize cfg)
              then Z.to_nat (DefaultBufferSize cfg) else 0).
Proof.
  unfold newPRNG. destruct (newCipher E w) as [[stream|] w1]; [|discriminate].
  intros H. injection H as <- _.
  now destruct (UseZeroBuffer cfg && (0 <? DefaultBufferSize cfg)).
Qed.

(** C10. The scratch buffer [zero] holds only zero bytes before and after
    every [Read]: [newPRNG] allocates it zero-filled; [Read] leaves its
    backing array as it was or replaces it by a fresh zero-filled one of the
    requested length; and in zero-buffer mode the bytes written to the
    caller's buffer are the next [len(b)] keystream bytes of the active
    cipher, whatever the buffer held before. *)
Theorem zero_buffer_stays_zero (E : Env) :
  (forall cfg w p w',
     newPRNG E cfg w = (Some p, w') ->
     all_zero (slice_array (prng_zero p))) /\
  (forall p b w,
     all_zero (slice_array (prng_zero p)) ->
     let p' := snd (fst (fst (prng_Read E p b w))) in
     let b' := snd (fst (prng_Read E p b w)) in
     all_zero (slice_array (prng_zero p')) /\
     (slice_array (prng_zero p') = slice_array (prng_zero p) \/
      slice_array (prng_zero p') = make_bytes (length b)) /\
     (UseZeroBuffer (prng_config p) = true ->
      b' = next_keystream E (heap w (prng_cipher p)) (length b))).
Proof.
  split.
  - intros cfg w p w' H. rewrite (newPRNG_zero _ _ _ _ _ H).
    apply all_zero_make_bytes.
  - intros p b w Hz. cbv zeta. rewrite prng_Read_zero, prng_Read_output.
    repeat split.
    + destruct (UseZeroBuffer (prng_config p) && negb (length b =? 0)%nat);
        auto using zero_for_all_zero.
    + destruct (UseZeroBuffer (prng_config p) && negb (length b =? 0)%nat);
        auto.
      unfold zero_for. destruct (cap (prng_zero p) <? length b)%nat; auto.
    + intros ->. rewrite xor_bytes_zero_l.
      * rewrite zero_for_length.
        rewrite <- (next_keystream_length E (heap w (prng_cipher p))
                      (length b)) at 1.
        apply firstn_all.
      * apply all_zero_firstn, zero_for_all_zero, Hz.
Qed.

Lemma zero_buffer_stays_zero_witness :
  match fst (newPRNG sample_env_ok (WithZeroBuffer true (DefaultConfig 4))
               world0) with
  | Some p => all_zero (slice_array (prng_zero p))
  | None => False
  end /\
  all_zero (slice_array (prng_zero (snd (fst (fst
     (prng_Read sample_env_ok
        (sample_prng (WithZeroBuffer true (DefaultConfig 4)))
        [xff; x01; x80] sample_world)))))) /\
  snd (fst (prng_Read sample_env_ok
              (sample_prng (WithZeroBuffer true (DefaultConfig 4)))
              [xff; x01; x80] sample_world)) =
  next_keystream sample_env_ok (heap sample_world 0) 3.
Proof.
  split.
  - destruct (newPRNG sample_env_ok (WithZeroBuffer true (DefaultConfig 4))
                world0) as [[p|] w'] eqn:H.
    + exact (proj1 (zero_buffer_stays_zero sample_env_ok) _ _ _ _ H).
    + vm_compute in H. discriminate.
  - destruct (proj2 (zero_buffer_stays_zero sample_env_ok)
                (sample_prng (WithZeroBuffer true (DefaultConfig 4)))
                [xff; x01; x80] sample_world) as (H1 & _ & H3).
    + apply all_zero_make_bytes.
    + split; [exact H1 | apply H3; reflexivity].
Defined.

(** C2, as amended. The two modes advance the cipher alike, and the
    in-place output is the caller's input XORed with the zero-buffer
    output; the two outputs are the same byte stream when the input buffer
    holds only zeros. *)
Theorem zero_buffer_mode_vs_in_place (E : Env) (p : prng) (b : list byte)
  (w : World) :
  all_zero (slice_array (prng_zero p)) ->
  let out flag := snd (fst (prng_Read E (with_zero_buffer flag p) b w)) in
  let after flag := snd (prng_Read E (with_zero_buffer flag p) b w) in
  out true = next_keystream E (heap w (prng_cipher p)) (length b) /\
  out false = xor_bytes b (out true) /\
  (all_zero b -> out false = out true) /\
  heap (after true) = heap (after false).
Proof.
  intros Hz. cbv beta zeta. rewrite !prng_Read_output. simpl.
  assert (Hks : xor_bytes (slice_bytes (zero_for (with_zero_buffer true p)
                                          (length b)))
                  (next_keystream E (heap w (prng_cipher p)) (length b)) =
                next_keystream E (heap w (prng_cipher p)) (length b)).
  { rewrite xor_bytes_zero_l.
    - rewrite zero_for_length.
      rewrite <- (next_keystream_length E (heap w (prng_cipher p))
                    (length b)) at 1.
      apply firstn_all.
    - apply all_zero_firstn, zero_for_all_zero, Hz. }
  rewrite Hks. repeat split.
  - intros Hb. rewrite xor_bytes_zero_l by assumption.
    rewrite <- (next_keystream_length E (heap w (prng_cipher p))
                  (length b)) at 1.
    apply firstn_all.
  - destruct b as [|b0 b']; [reflexivity|].
    rewrite !prng_Read_heap by discriminate. reflexivity.
Qed.

Lemma zero_buffer_mode_vs_in_place_witness :
  snd (fst (prng_Read sample_env_ok
              (with_zero_buffer false (sample_prng (DefaultConfig 4)))
              [x00; x00; x00] sample_world)) =
  snd (fst (prng_Read sample_env_ok
              (with_zero_buffer true (sample_prng (DefaultConfig 4)))
              [x00; x00; x00] sample_world)).
Proof.
  destruct (zero_buffer_mode_vs_in_place sample_env_ok
              (sample_prng (DefaultConfig 4)) [x00; x00; x00] sample_world)
    as (_ & _ & H & _).
  - apply all_zero_make_bytes.
  - apply H. repeat constructor.
Defined.

(** C2 as stated fails: on the one-byte buffer 0x01 the in-place read and
    the zero-buffer read of the same generator give different bytes. *)
Lemma zero_buffer_mode_differs :
  snd (fst (prng_Read sample_env_ok
              (with_zero_buffer true (sample_prng (DefaultConfig 4)))
              [x01] sample_world)) <>
  snd (fst (prng_Read sample_env_ok
              (with_zero_buffer false (sample_prng (DefaultConfig 4)))
              [x01] sample_world)).
Proof. vm_compute. discriminate. Qed.

(** ** Usage tracking *)

Lemma prng_Read_tracking (E : Env) (p : prng) (b : list byte) (w : World) :
  b <> [] ->
  let p' := snd (fst (fst (prng_Read E p b w))) in
  let w' := snd (prng_Read E p b w) in
  let p1 := if UseZeroBuffer (prng_config p)
            then set_zero (zero_for p (length b)) p else p in
  p' = fst (track_usage p1 (length b) (advance (prng_cipher p) (length b) w))
  /\ trace w' =
     trace (snd (track_usage p1 (length b)
                   (advance (prng_cipher p) (length b) w))).
Proof.
  intros Hb. cbv zeta. rewrite prng_Read_nonempty by assumption. cbv zeta.
  destruct (track_usage _ _ _). split; reflexivity.
Qed.

(** C4. A [Read] of [n > 0] bytes with key rotation enabled adds [n] to
    [usage] (modulo 2^64); it starts the rekey worker, setting [rekeying]
    from 0 to 1, exactly when the new [usage] exceeds [MaxBytesPerKey] and
    [rekeying] was 0; otherwise no worker is started and [rekeying] keeps
    its value. With key rotation disabled [usage] and [rekeying] keep their
    values and no worker is started. In every case the configuration and
    the cipher reference of the generator are unchanged. *)
Theorem Read_tracks_usage_and_rekeys_once (E : Env) (p : prng)
  (b : list byte) (w : World) :
  b <> [] ->
  let n := Z.of_nat (length b) in
  let p' := snd (fst (fst (prng_Read E p b w))) in
  let w' := snd (prng_Read E p b w) in
  let post := uint64 (prng_usage p + uint64 n) in
  let crossing :=
    MaxBytesPerKey (prng_config p) < post /\ prng_rekeying p = 0 in
  prng_config p' = prng_config p /\
  prng_cipher p' = prng_cipher p /\
  (EnableKeyRotation (prng_config p) = true ->
     prng_usage p' = post /\
     (trace w' = trace w ++ [EvGo] <-> crossing) /\
     (crossing -> prng_rekeying p' = 1) /\
     (~ crossing ->
        prng_rekeying p' = prng_rekeying p /\ trace w' = trace w)) /\
  (EnableKeyRotation (prng_config p) = false ->
     prng_usage p' = prng_usage p /\
     prng_rekeying p' = prng_rekeying p /\
     trace w' = trace w).
Proof.
  intros Hb. cbv zeta.
  destruct (prng_Read_tracking E p b w Hb) as [Hp Hw]. cbv zeta in Hp, Hw.
  rewrite Hp, Hw. clear Hp Hw.
  set (p1 := if UseZeroBuffer (prng_config p)
             then set_zero (zero_for p (length b)) p else p).
  assert (Hc : prng_config p1 = prng_config p)
    by (subst p1; now destruct (UseZeroBuffer (prng_config p))).
  assert (Hu : prng_usage p1 = prng_usage p)
    by (subst p1; now destruct (UseZeroBuffer (prng_config p))).
  assert (Hr : prng_rekeying p1 = prng_rekeying p)
    by (subst p1; now destruct (UseZeroBuffer (prng_config p))).
  assert (Hk : prng_cipher p1 = prng_cipher p)
    by (subst p1; now destruct (UseZeroBuffer (prng_config p))).
  rewrite track_usage_config, track_usage_cipher, Hc, Hk.
  split; [reflexivity|]. split; [reflexivity|].
  assert (Hne : forall t : list Event, t <> t ++ [EvGo]).
  { intros t H. apply (f_equal (@length Event)) in H.
    rewrite length_app in H. simpl in H. lia. }
  unfold track_usage, AddUint64_usage. simpl. rewrite !Hc, Hu, Hr.
  clearbody p1. split.
  - intros ->.
    destruct (Z.ltb_spec (MaxBytesPerKey (prng_config p))
                (uint64 (prng_usage p + uint64 (Z.of_nat (length b)))))
      as [Hlt|Hge].
    + destruct (Z.eqb_spec (prng_rekeying p) 0) as [Hz|Hnz]; simpl.
      * split; [reflexivity|]. split; [tauto|]. split; [reflexivity|tauto].
      * split; [reflexivity|]. split; [|split; [tauto|auto]].
        split; [|tauto]. intros Habs. exfalso. exact (Hne _ Habs).
    + simpl. split; [reflexivity|]. split; [|split; [lia|auto]].
      split; [|lia]. intros Habs. exfalso. exact (Hne _ Habs).
  - intros ->. simpl. auto.
Qed.

Lemma Read_tracks_usage_and_rekeys_once_witness :
  prng_usage (snd (fst (fst (prng_Read sample_env_ok sample_rotating_prng
                               [x00; x00; x00; x00; x00] sample_world)))) =
  65 /\
  prng_rekeying (snd (fst (fst (prng_Read sample_env_ok sample_rotating_prng
                                  [x00; x00; x00; x00; x00]
                                  sample_world)))) = 1 /\
  trace (snd (prng_Read sample_env_ok sample_rotating_prng
                [x00; x00; x00; x00; x00] sample_world)) =
  trace sample_world ++ [EvGo] /\
  prng_usage (snd (fst (fst (prng_Read sample_env_ok
                               (sample_prng (DefaultConfig 4))
                               [x00; x00; x00; x00; x00] sample_world)))) =
  60.
Proof.
  destruct (Read_tracks_usage_and_rekeys_once sample_env_ok
              sample_rotating_prng [x00; x00; x00; x00; x00] sample_world)
    as (_ & _ & Hon & _); [discriminate|].
  destruct (Hon eq_refl) as (Hu & Hiff & Hone & _).
  assert (Hcross : MaxBytesPerKey (prng_config sample_rotating_prng) <
                   uint64 (60 + uint64 5) /\ 0 = 0)
    by (vm_compute; split; reflexivity).
  split; [exact Hu|]. split; [apply Hone, Hcross|].
  split; [apply Hiff, Hcross|].
  destruct (Read_tracks_usage_and_rekeys_once sample_env_ok
              (sample_prng (DefaultConfig 4)) [x00; x00; x00; x00; x00]
              sample_world)
    as (_ & _ & _ & Hoff); [discriminate|].
  exact (proj1 (Hoff eq_refl)).
Defined.

(** ** Traces *)

Arguments rand_ReadFull : simpl never.
Arguments newCipher : simpl never.

Lemma new_events_app (w w' : World) (evs : list Event) :
  trace w' = trace w ++ evs -> new_events w w' = evs.
Proof.
  intros H. unfold new_events. rewrite H, skipn_app, skipn_all, Nat.sub_diag.
  reflexivity.
Qed.

Lemma sleeps_app (a b : list Event) : sleeps (a ++ b) = sleeps a ++ sleeps b.
Proof. apply flat_map_app. Qed.

Lemma draws_app (a b : list Event) : draws (a ++ b) = draws a ++ draws b.
Proof. apply flat_map_app. Qed.

Lemma attempts_app (a b : list Event) :
  attempts (a ++ b) = (attempts a + attempts b)%nat.
Proof. unfold attempts. now rewrite flat_map_app, length_app. Qed.

Lemma cipher_events_silent (evs : list Event) :
  Forall cipher_event evs -> sleeps evs = [] /\ draws evs = [].
Proof.
  induction 1 as [|e evs He _ [IH1 IH2]]; [split; reflexivity|].
  destruct e; simpl in *; try contradiction; auto.
  unfold KeySize, NonceSizeX in He. split; [assumption|].
  destruct He as [-> | ->]; assumption.
Qed.

Lemma cipher_events_quiet (evs : list Event) :
  Forall cipher_event evs -> Forall quiet evs.
Proof.
  intros H. eapply Forall_impl; [|exact H].
  intros e. destruct e; simpl; auto.
Qed.

Section WorkerFacts.

Variable E : Env.

Lemma rand_ReadFull_world (n : nat) (w : World) :
  let w' := snd (rand_ReadFull E n w) in
  trace w' = trace w ++ [EvRandRead n (fst (rand_ReadFull E n w))] /\
  heap w' = heap w /\ heap_next w' = heap_next w.
Proof. cbv zeta. unfold rand_ReadFull. simpl. auto. Qed.

(** What a call of [newCipher] leaves behind: some entropy reads and one
    return; a new object only on success. *)
Lemma newCipher_world (w : World) :
  let r := fst (newCipher E w) in
  let w' := snd (newCipher E w) in
  exists evs,
    trace w' = trace w ++ evs /\ Forall cipher_event evs /\
    attempts evs = 1%nat /\
    match r with
    | None => heap w' = heap w /\ heap_next w' = heap_next w
    | Some a => a = heap_next w /\ heap_next w' = S (heap_next w) /\
                forall x, x <> a -> heap w' x = heap w x
    end.
Proof.
  cbv zeta. unfold newCipher.
  destruct (rand_ReadFull E KeySize w) as [r1 w1] eqn:H1.
  pose proof (rand_ReadFull_world KeySize w) as (T1 & P1 & N1).
  rewrite H1 in T1, P1, N1. simpl in T1, P1, N1.
  destruct r1 as [key|].
  - destruct (rand_ReadFull E NonceSizeX w1) as [r2 w2] eqn:H2.
    pose proof (rand_ReadFull_world NonceSizeX w1) as (T2 & P2 & N2).
    rewrite H2 in T2, P2, N2. simpl in T2, P2, N2.
    destruct r2 as [nonce|].
    + destruct (NewUnauthenticatedCipher key nonce) as [c|].
      * simpl. eexists. split.
        { rewrite T2, T1, <- !app_assoc. reflexivity. }
        split; [repeat apply Forall_cons; simpl; auto|]. split; [reflexivity|].
        rewrite N2, N1. repeat split.
        intros x Hx. apply Nat.eqb_neq in Hx. rewrite Hx.
        now rewrite P2, P1.
      * simpl. eexists. split.
        { rewrite T2, T1, <- !app_assoc. reflexivity. }
        split; [repeat apply Forall_cons; simpl; auto|]. split; [reflexivity|].
        now rewrite P2, P1, N2, N1.
    + simpl. eexists. split.
      { rewrite T2, T1, <- !app_assoc. reflexivity. }
      split; [repeat apply Forall_cons; simpl; auto|]. split; [reflexivity|].
      now rewrite P2, P1, N2, N1.
  - simpl. eexists. split.
    { rewrite T1, <- !app_assoc. reflexivity. }
    split; [repeat apply Forall_cons; simpl; auto|]. split; [reflexivity|].
    now rewrite P1, N1.
Qed.

(** One iteration of the loop. *)
Lemma rekey_loop_step (n : nat) (base M : Z) (p : prng) (w : World) :
  rekey_loop E (S n) base M p w =
  match newCipher E w with
  | (Some stream, w1) =>
    (Rotated, set_usage 0 (set_cipher stream p),
     log (EvZeroCipher (prng_cipher p))
       (heap_set (prng_cipher p) zero_Cipher
          (log (EvStoreUsage 0) (log (EvStoreCipher stream) w1))))
  | (None, w1) =>
    let w2 := snd (rand_ReadFull E 8 w1) in
    match fst (rand_ReadFull E 8 w1) with
    | Some b =>
      if uint64 base =? 0 then (Crashed DivideByZero, p, w2)
      else rekey_loop E n (next_backoff M base) M p
             (time_Sleep
                (int64 (base + int64 (BigEndian_Uint64 b mod uint64 base)))
                w2)
    | None => rekey_loop E n (next_backoff M base) M p (time_Sleep base w2)
    end
  end.
Proof.
  cbn [rekey_loop]. destruct (newCipher E w) as [[stream|] w1]; [reflexivity|].
  destruct (rand_ReadFull E 8 w1) as [[b|] w2]; cbn [fst snd]; [|reflexivity].
  destruct (uint64 base =? 0); reflexivity.
Qed.

(** The shape of every run of the loop. *)
Lemma rekey_loop_shape (n : nat) :
  forall base M p w e p' w',
    rekey_loop E n base M p w = (e, p', w') ->
    exists evs,
      trace w' = trace w ++ evs /\ (attempts evs <= n)%nat /\
      match e with
      | Rotated =>
        exists pre new,
          evs = pre ++ [EvStoreCipher new; EvStoreUsage 0;
                        EvZeroCipher (prng_cipher p)] /\
          Forall quiet pre /\
          p' = set_usage 0 (set_cipher new p) /\
          heap w' (prng_cipher p) = zero_Cipher
      | Exhausted =>
        Forall quiet evs /\ p' = p /\ heap w' = heap w /\ attempts evs = n
      | Crashed x =>
        x = DivideByZero /\ Forall quiet evs /\ p' = p /\ heap w' = heap w
      end.
Proof.
  induction n as [|n IH]; intros base M p w e p' w' H.
  - simpl in H. injection H as <- <- <-. exists []. rewrite app_nil_r.
    repeat split; auto.
  - rewrite rekey_loop_step in H.
    destruct (newCipher_world w) as (ec & Tc & Fc & Ac & Hc).
    destruct (newCipher E w) as [[stream|] w1]; simpl in Tc, Hc.
    + injection H as <- <- <-.
      exists (ec ++ [EvStoreCipher stream; EvStoreUsage 0;
                     EvZeroCipher (prng_cipher p)]).
      split; [simpl; rewrite Tc, <- !app_assoc; reflexivity|].
      split; [rewrite attempts_app, Ac; unfold attempts; simpl; lia|].
      exists ec, stream. repeat split; auto using cipher_events_quiet.
      simpl. now rewrite Nat.eqb_refl.
    + destruct Hc as [Hh Hn].
      pose proof (rand_ReadFull_world 8 w1) as (Tr & Hr & _).
      cbv zeta in H, Tr, Hr.
      set (r := fst (rand_ReadFull E 8 w1)) in *.
      set (w2 := snd (rand_ReadFull E 8 w1)) in *.
      clearbody r w2.
      assert (Hstep : forall d e0 q w0,
                rekey_loop E n (next_backoff M base) M p (time_Sleep d w2) =
                (e0, q, w0) ->
                exists evs,
                  trace w0 = trace w ++ evs /\
                  (attempts evs <= S n)%nat /\
                  match e0 with
                  | Rotated =>
                    exists pre new,
                      evs = pre ++ [EvStoreCipher new; EvStoreUsage 0;
                                    EvZeroCipher (prng_cipher p)] /\
                      Forall quiet pre /\
                      q = set_usage 0 (set_cipher new p) /\
                      heap w0 (prng_cipher p) = zero_Cipher
                  | Exhausted =>
                    Forall quiet evs /\ q = p /\ heap w0 = heap w /\
                    attempts evs = S n
                  | Crashed x =>
                    x = DivideByZero /\ Forall quiet evs /\ q = p /\
                    heap w0 = heap w
                  end).
      { intros d e0 q w0 Hl. apply IH in Hl.
        destruct Hl as (evs & Te & Ae & He).
        exists (ec ++ [EvRandRead 8 r; EvSleep d] ++ evs).
        split.
        { rewrite Te. simpl. rewrite Tr, Tc, <- !app_assoc. reflexivity. }
        split; [rewrite !attempts_app, Ac; unfold attempts at 1; simpl; lia|].
        assert (Hq : Forall quiet (ec ++ [EvRandRead 8 r; EvSleep d])).
        { apply Forall_app. split; [now apply cipher_events_quiet|].
          repeat apply Forall_cons; simpl; auto. }
        destruct e0.
        - destruct He as (pre & new & -> & Fp & -> & Hz).
          exists ((ec ++ [EvRandRead 8 r; EvSleep d]) ++ pre), new.
          split; [now rewrite <- !app_assoc|].
          split; [apply Forall_app; now split|]. now split.
        - destruct He as (Fe & -> & Hw & Hat).
          split; [rewrite app_assoc; apply Forall_app; now split|].
          split; [reflexivity|].
          split; [now rewrite Hw; simpl; rewrite Hr, Hh|].
          rewrite !attempts_app, Ac, Hat. reflexivity.
        - destruct He as (-> & Fe & -> & Hw).
          split; [reflexivity|].
          split; [rewrite app_assoc; apply Forall_app; now split|].
          split; [reflexivity|]. now rewrite Hw; simpl; rewrite Hr, Hh. }
      destruct r as [b|].
      * destruct (uint64 base =? 0).
        { injection H as <- <- <-.
          exists (ec ++ [EvRandRead 8 (Some b)]).
          split; [rewrite Tr, Tc, <- !app_assoc; reflexivity|].
          split; [rewrite attempts_app, Ac; unfold attempts; simpl; lia|].
          split; [reflexivity|].
          split.
          { apply Forall_app. split; [now apply cipher_events_quiet|].
            repeat apply Forall_cons; simpl; auto. }
          split; [reflexivity|]. now rewrite Hr, Hh. }
        { eapply Hstep. exact H. }
      * eapply Hstep. exact H.
Qed.

End WorkerFacts.

(** ** The backoff arithmetic *)

Lemma uint64_id (z : Z) : 0 <= z < 2 ^ 64 -> uint64 z = z.
Proof. intros H. unfold uint64. now apply Z.mod_small. Qed.

Lemma int64_id (z : Z) : - 2 ^ 63 <= z < 2 ^ 63 -> int64 z = z.
Proof. intros H. unfold int64. rewrite Z.mod_small; lia. Qed.

Lemma backoff_at_bounds (rb M : Z) (i : nat) :
  0 < rb < 2 ^ 62 -> 0 < M < 2 ^ 62 -> 0 < backoff_at rb M i < 2 ^ 62.
Proof.
  intros Hrb HM. destruct i as [|i]; simpl backoff_at; [assumption|].
  assert (0 < rb * 2 ^ Z.of_nat (S i)) by (apply Z.mul_pos_pos; lia).
  lia.
Qed.

Lemma next_backoff_at (rb M : Z) (i : nat) :
  0 < rb < 2 ^ 62 -> 0 < M < 2 ^ 62 ->
  next_backoff M (backoff_at rb M i) = backoff_at rb M (S i).
Proof.
  intros Hrb HM. pose proof (backoff_at_bounds rb M i Hrb HM) as Hb.
  unfold next_backoff. rewrite int64_id by lia.
  assert (Hgoal : Z.min (backoff_at rb M i * 2) M = backoff_at rb M (S i)).
  { destruct i as [|i].
    - simpl backoff_at. change (2 ^ Z.of_nat 1) with 2. reflexivity.
    - cbn [backoff_at] in *.
      replace (2 ^ Z.of_nat (S (S i))) with (2 ^ Z.of_nat (S i) * 2)
        by (rewrite (Nat2Z.inj_succ (S i)), Z.pow_succ_r by lia; lia).
      assert (0 < rb * 2 ^ Z.of_nat (S i)) by (apply Z.mul_pos_pos; lia).
      lia. }
  rewrite <- Hgoal.
  destruct (Z.ltb_spec M (backoff_at rb M i * 2)); lia.
Qed.


Lemma jitter_delay (base rnd : Z) :
  0 < base < 2 ^ 62 ->
  (uint64 base =? 0) = false /\
  int64 (base + int64 (rnd mod uint64 base)) = base + rnd mod base.
Proof.
  intros Hb. rewrite uint64_id by lia. split; [apply Z.eqb_neq; lia|].
  pose proof (Z.mod_pos_bound rnd base ltac:(lia)) as Hm.
  rewrite (int64_id (rnd mod base)) by lia. apply int64_id. lia.
Qed.

Section BackoffFacts.

Variable E : Env.
Variables rb M : Z.
Hypothesis Hrb : 0 < rb < 2 ^ 62.
Hypothesis HM : 0 < M < 2 ^ 62.

(** From the [j]-th failed attempt on, every sleep is the jittered backoff
    of its attempt, and no attempt divides by zero. *)
Lemma rekey_loop_backoff (n : nat) :
  forall j p w e p' w',
    rekey_loop E n (backoff_at rb M j) M p w = (e, p', w') ->
    exists evs,
      trace w' = trace w ++ evs /\
      (forall x, e <> Crashed x) /\
      forall i d,
        nth_error (sleeps evs) i = Some d ->
        exists r, nth_error (draws evs) i = Some r /\
                  d = delay_of (backoff_at rb M (j + i)) r.
Proof.
  induction n as [|n IH]; intros j p w e p' w' H.
  - simpl in H. injection H as <- <- <-. exists []. rewrite app_nil_r.
    split; [reflexivity|]. split; [discriminate|].
    intros [|i] d; discriminate.
  - rewrite rekey_loop_step in H.
    destruct (newCipher_world E w) as (ec & Tc & Fc & _ & _).
    destruct (cipher_events_silent ec Fc) as [Sc Dc].
    destruct (newCipher E w) as [[stream|] w1]; simpl in Tc.
    + injection H as <- <- <-.
      exists (ec ++ [EvStoreCipher stream; EvStoreUsage 0;
                     EvZeroCipher (prng_cipher p)]).
      split; [simpl; rewrite Tc, <- !app_assoc; reflexivity|].
      split; [discriminate|].
      rewrite sleeps_app, Sc. intros [|i] d; discriminate.
    + pose proof (rand_ReadFull_world E 8 w1) as (Tr & _ & _).
      cbv zeta in H, Tr.
      set (r := fst (rand_ReadFull E 8 w1)) in *.
      set (w2 := snd (rand_ReadFull E 8 w1)) in *.
      clearbody r w2.
      pose proof (backoff_at_bounds rb M j Hrb HM) as Hb.
      rewrite next_backoff_at in H by assumption.
      assert (Hd : exists q,
                 rekey_loop E n (backoff_at rb M (S j)) M p
                   (time_Sleep (delay_of (backoff_at rb M j) r) w2) = q /\
                 q = (e, p', w')).
      { eexists. split; [reflexivity|]. destruct r as [b|].
        - destruct (jitter_delay (backoff_at rb M j) (BigEndian_Uint64 b) Hb)
            as [H0 Hj].
          rewrite H0, Hj in H. exact H.
        - exact H. }
      destruct Hd as (q & Hq & ->). apply IH in Hq.
      destruct Hq as (evs & Te & Hne & Hi).
      exists (ec ++ [EvRandRead 8 r;
                     EvSleep (delay_of (backoff_at rb M j) r)] ++ evs).
      split.
      { rewrite Te. simpl. rewrite Tr, Tc, <- !app_assoc. reflexivity. }
      split; [exact Hne|].
      rewrite sleeps_app, draws_app, Sc, Dc. simpl.
      intros [|i] d Hnth; simpl in Hnth.
      * injection Hnth as <-. exists r. rewrite Nat.add_0_r. now split.
      * destruct (Hi i d Hnth) as (r' & Hr' & ->). exists r'.
        simpl. split; [exact Hr'|]. now rewrite Nat.add_succ_r.
Qed.

End BackoffFacts.

(** ** The rekey worker *)

Lemma asyncRekey_unfold (E : Env) (p : prng) (w : World) :
  asyncRekey E p w =
  let x := rekey_loop E (Z.to_nat (MaxRekeyAttempts (prng_config p)))
             (RekeyBackoff (prng_config p)) (effective_max (prng_config p))
             p w in
  (fst (fst x), set_rekeying 0 (snd (fst x)),
   log (EvStoreRekeying 0) (snd x)).
Proof.
  unfold asyncRekey, effective_max, StoreUint32_rekeying.
  destruct (rekey_loop _ _ _ _ _ _) as [[e p1] w1]. reflexivity.
Qed.

Lemma zero_Cipher_zeroed : zeroed zero_Cipher.
Proof.
  unfold zeroed, zero_Cipher. simpl.
  repeat split; apply all_zero_make_bytes.
Qed.

(** C3. Every run of the rekey worker ends with the store of 0 into
    [rekeying], whether it rotated the cipher, ran out of attempts or
    panicked. A run that rotates ends with, in this order: the store of the
    new cipher, the store of 0 into [usage], the zeroing of the cipher that
    was active before, the store of 0 into [rekeying]; nothing is stored
    before these four, and afterwards the generator holds the new cipher,
    [usage] is 0 and the old cipher's state is all zero. *)
Theorem asyncRekey_rotation_order (E : Env) (p : prng) (w : World) :
  let e := fst (fst (asyncRekey E p w)) in
  let p' := snd (fst (asyncRekey E p w)) in
  let w' := snd (asyncRekey E p w) in
  prng_rekeying p' = 0 /\
  (exists pre, new_events w w' = pre ++ [EvStoreRekeying 0] /\
               (e <> Rotated -> Forall quiet pre)) /\
  (e = Rotated ->
   exists pre new,
     new_events w w' =
       pre ++ [EvStoreCipher new; EvStoreUsage 0;
               EvZeroCipher (prng_cipher p); EvStoreRekeying 0] /\
     Forall quiet pre /\
     prng_cipher p' = new /\ prng_usage p' = 0 /\
     zeroed (heap w' (prng_cipher p))).
Proof.
  cbv zeta. rewrite asyncRekey_unfold. cbv zeta.
  destruct (rekey_loop E _ _ _ p w) as [[e p1] w1] eqn:Hl.
  apply rekey_loop_shape in Hl. destruct Hl as (evs & Te & _ & He).
  cbn [fst snd].
  assert (Hev : new_events w (log (EvStoreRekeying 0) w1) =
                evs ++ [EvStoreRekeying 0]).
  { apply new_events_app. simpl. now rewrite Te, <- app_assoc. }
  rewrite Hev. split; [reflexivity|]. split.
  - exists evs. split; [reflexivity|]. intros Hne.
    destruct e; [congruence | apply He | apply He].
  - intros ->. destruct He as (pre & new & -> & Fp & -> & Hz).
    exists pre, new. rewrite <- app_assoc. simpl.
    repeat split; auto; rewrite Hz; apply zero_Cipher_zeroed.
Qed.

Lemma asyncRekey_rotation_order_witness :
  exists pre,
    new_events sample_world
      (snd (asyncRekey sample_env_ok (sample_prng (DefaultConfig 4))
              sample_world)) =
    pre ++ [EvStoreCipher 1; EvStoreUsage 0; EvZeroCipher 0;
            EvStoreRekeying 0] /\
    zeroed (heap (snd (asyncRekey sample_env_ok
                         (sample_prng (DefaultConfig 4)) sample_world)) 0).
Proof.
  destruct (asyncRekey_rotation_order sample_env_ok
              (sample_prng (DefaultConfig 4)) sample_world)
    as (_ & _ & H).
  destruct (H eq_refl) as (pre & new & Hev & _ & Hc & _ & Hz).
  exists pre. split; [|exact Hz].
  rewrite Hev. rewrite <- Hc. reflexivity.
Defined.

Lemma rekey_loop_reads_cipher_only (E : Env) (n : nat) :
  forall base M p q w,
    prng_cipher p = prng_cipher q ->
    fst (fst (rekey_loop E n base M p w)) =
    fst (fst (rekey_loop E n base M q w)) /\
    snd (rekey_loop E n base M p w) = snd (rekey_loop E n base M q w).
Proof.
  induction n as [|n IH]; intros base M p q w Hpq; [split; reflexivity|].
  rewrite !rekey_loop_step, Hpq.
  destruct (newCipher E w) as [[stream|] w1]; [split; reflexivity|].
  cbv zeta. destruct (fst (rand_ReadFull E 8 w1)) as [b|].
  - destruct (uint64 base =? 0); [split; reflexivity|]. now apply IH.
  - now apply IH.
Qed.




(** With a zero backoff that stays zero, a successful draw is the end. *)
Lemma rekey_loop_zero_backoff (E : Env) (M : Z) (n : nat) :
  0 <= M ->
  forall p w e p' w',
    rekey_loop E n 0 M p w = (e, p', w') ->
    exists evs,
      trace w' = trace w ++ evs /\
      forall i b, nth_error (draws evs) i = Some (Some b) ->
                  e = Crashed DivideByZero.
Proof.
  intros HM. induction n as [|n IH]; intros p w e p' w' H.
  - simpl in H. injection H as <- <- <-. exists []. rewrite app_nil_r.
    split; [reflexivity|]. intros [|i] b; discriminate.
  - rewrite rekey_loop_step in H.
    destruct (newCipher_world E w) as (ec & Tc & Fc & _ & _).
    destruct (cipher_events_silent ec Fc) as [_ Dc].
    destruct (newCipher E w) as [[stream|] w1]; simpl in Tc.
    + injection H as <- <- <-.
      exists (ec ++ [EvStoreCipher stream; EvStoreUsage 0;
                     EvZeroCipher (prng_cipher p)]).
      split; [simpl; rewrite Tc, <- !app_assoc; reflexivity|].
      rewrite draws_app, Dc. intros [|i] b; discriminate.
    + pose proof (rand_ReadFull_world E 8 w1) as (Tr & _ & _).
      cbv zeta in H, Tr.
      set (r := fst (rand_ReadFull E 8 w1)) in *.
      set (w2 := snd (rand_ReadFull E 8 w1)) in *.
      clearbody r w2.
      assert (Hnext : next_backoff M 0 = 0).
      { unfold next_backoff. change (int64 (0 * 2)) with 0.
        destruct (Z.ltb_spec M 0); [lia | reflexivity]. }
      rewrite Hnext in H. change (uint64 0 =? 0) with true in H.
      destruct r as [b0|].
      * injection H as <- <- <-. exists (ec ++ [EvRandRead 8 (Some b0)]).
        split; [rewrite Tr, Tc, <- !app_assoc; reflexivity|]. reflexivity.
      * apply IH in H. destruct H as (evs & Te & Hi).
        exists (ec ++ [EvRandRead 8 None; EvSleep 0] ++ evs).
        split.
        { rewrite Te. simpl. rewrite Tr, Tc, <- !app_assoc. reflexivity. }
        rewrite draws_app, Dc. simpl. intros [|i] b Hnth; simpl in Hnth.
        { discriminate. }
        { now apply (Hi i b). }
Qed.

(** C9, as amended. The worker replaces only [MaxRekeyBackoff = 0] by the
    library default: such a run is the run with [MaxRekeyBackoff] set to
    2 s. [RekeyBackoff = 0] is used as it is: when the first attempt fails
    and the 8-byte draw succeeds, the jitter divides by zero and the worker
    panics, and so it does at any later failed attempt whose draw succeeds
    when [MaxRekeyBackoff] is not negative. No attempt divides by zero when
    [RekeyBackoff] and the backoff bound in force are both positive and
    below 2^62 ns. *)
Theorem rekey_backoff_zero_division (E : Env) (p : prng) (w : World) :
  let cfg := prng_config p in
  let e := fst (fst (asyncRekey E p w)) in
  let evs := new_events w (snd (asyncRekey E p w)) in
  (MaxRekeyBackoff cfg = 0 ->
   let q := with_config (WithMaxRekeyBackoff maxRekeyBackoff cfg) p in
   e = fst (fst (asyncRekey E q w)) /\
   snd (asyncRekey E p w) = snd (asyncRekey E q w)) /\
  (RekeyBackoff cfg = 0 -> 0 < MaxRekeyAttempts cfg ->
   fst (newCipher E w) = None ->
   fst (rand_ReadFull E 8 (snd (newCipher E w))) <> None ->
   e = Crashed DivideByZero) /\
  (RekeyBackoff cfg = 0 -> 0 <= MaxRekeyBackoff cfg ->
   forall i b, nth_error (draws evs) i = Some (Some b) ->
               e = Crashed DivideByZero) /\
  (0 < RekeyBackoff cfg < 2 ^ 62 -> 0 < effective_max cfg < 2 ^ 62 ->
   forall x, e <> Crashed x).
Proof.
  cbv zeta. split; [|split; [|split]].
  - intros H0. rewrite !asyncRekey_unfold. cbv zeta. cbn [fst snd].
    unfold with_config, effective_max. simpl. rewrite H0. simpl.
    match goal with |- context [rekey_loop E ?n ?b ?m p w] =>
      match goal with |- context [rekey_loop E n b m ?q w] =>
        lazymatch q with
        | p => fail
        | _ => destruct (rekey_loop_reads_cipher_only E n b m p q w eq_refl)
                 as [He Hw]
        end
      end
    end.
    rewrite He, Hw. split; reflexivity.
  - intros H0 Hn Hc Hd. rewrite asyncRekey_unfold. cbv zeta. cbn [fst snd].
    destruct (Z.to_nat (MaxRekeyAttempts (prng_config p))) as [|n] eqn:Hk;
      [lia|].
    rewrite rekey_loop_step, H0.
    destruct (newCipher E w) as [[stream|] w1]; [discriminate|].
    cbn [snd] in Hd. cbv zeta.
    destruct (fst (rand_ReadFull E 8 w1)) as [b|]; [|congruence].
    reflexivity.
  - intros H0 HM i b. rewrite asyncRekey_unfold. cbv zeta. cbn [fst snd].
    rewrite H0.
    destruct (rekey_loop E _ _ _ p w) as [[e p1] w1] eqn:Hl.
    assert (HM' : 0 <= effective_max (prng_config p)).
    { unfold effective_max, maxRekeyBackoff, Second.
      destruct (MaxRekeyBackoff (prng_config p) =? 0); lia. }
    pose proof (rekey_loop_zero_backoff E _ _ HM' _ _ _ _ _ Hl)
      as (evs & Te & Hi).
    cbn [fst snd].
    rewrite (new_events_app w (log (EvStoreRekeying 0) w1)
               (evs ++ [EvStoreRekeying 0])).
    + rewrite draws_app. simpl. rewrite app_nil_r. apply Hi.
    + simpl. now rewrite Te, <- app_assoc.
  - intros Hrb HM x. rewrite asyncRekey_unfold. cbv zeta. cbn [fst snd].
    destruct (rekey_loop E _ _ _ p w) as [[e p1] w1] eqn:Hl.
    pose proof (rekey_loop_backoff E _ _ Hrb HM _ 0%nat _ _ _ _ _ Hl)
      as (evs & _ & Hne & _).
    apply Hne.
Qed.

Lemma rekey_backoff_zero_division_witness :
  fst (fst (asyncRekey sample_env_short
              (sample_prng (WithMaxRekeyBackoff 0 (DefaultConfig 4)))
              sample_world)) =
  fst (fst (asyncRekey sample_env_short
              (sample_prng (WithMaxRekeyBackoff maxRekeyBackoff
                              (WithMaxRekeyBackoff 0 (DefaultConfig 4))))
              sample_world)) /\
  fst (fst (asyncRekey sample_env_short
              (sample_prng (WithRekeyBackoff 0 (DefaultConfig 4)))
              sample_world)) = Crashed DivideByZero /\
  fst (fst (asyncRekey sample_env_short
              (sample_prng (DefaultConfig 4)) sample_world)) <>
  Crashed DivideByZero.
Proof.
  split; [|split].
  - apply (proj1 (rekey_backoff_zero_division sample_env_short
                    (sample_prng (WithMaxRekeyBackoff 0 (DefaultConfig 4)))
                    sample_world)).
    reflexivity.
  - apply (proj1 (proj2 (rekey_backoff_zero_division sample_env_short
                    (sample_prng (WithRekeyBackoff 0 (DefaultConfig 4)))
                    sample_world))).
    + reflexivity.
    + reflexivity.
    + reflexivity.
    + vm_compute. discriminate.
  - apply (proj2 (proj2 (proj2 (rekey_backoff_zero_division sample_env_short
                    (sample_prng (DefaultConfig 4)) sample_world)))).
    + vm_compute. split; reflexivity.
    + vm_compute. split; reflexivity.
Defined.

(** C9 as stated fails: [RekeyBackoff] is positive, 2^62 ns, and the
    worker still divides by zero, at its third attempt, because the
    doubling wraps around to 0. *)
Lemma rekey_positive_backoff_divides_by_zero :
  0 < RekeyBackoff (WithRekeyBackoff (2 ^ 62) (DefaultConfig 4)) /\
  fst (fst (asyncRekey sample_env_short
              (sample_prng (WithRekeyBackoff (2 ^ 62) (DefaultConfig 4)))
              sample_world)) = Crashed DivideByZero /\
  attempts (new_events sample_world
              (snd (asyncRekey sample_env_short
                      (sample_prng (WithRekeyBackoff (2 ^ 62)
                                      (DefaultConfig 4)))
                      sample_world))) = 3%nat.
Proof. vm_compute. repeat split. Qed.

(** ** Pool construction *)

Arguments newPRNG : simpl never.

Section PoolFacts.

Variable E : Env.

Lemma newPRNG_world (cfg : Config) (w : World) :
  exists evs,
    trace (snd (newPRNG E cfg w)) = trace w ++ evs /\
    attempts evs = 1%nat /\
    (fst (newCipher E w) = None -> fst (newPRNG E cfg w) = None) /\
    (fst (newCipher E w) <> None -> fst (newPRNG E cfg w) <> None).
Proof.
  unfold newPRNG.
  destruct (newCipher_world E w) as (ec & Tc & _ & Ac & _).
  destruct (newCipher E w) as [[stream|] w1]; simpl in *.
  - exists (ec ++ [EvStoreCipher stream]). rewrite Tc, <- app_assoc.
    split; [reflexivity|]. rewrite attempts_app, Ac.
    repeat split; congruence.
  - exists ec. repeat split; auto.
Qed.

Lemma init_retries_fail (n : nat) :
  (forall w0, fst (newCipher E w0) = None) ->
  forall cfg w,
    fst (init_retries E n cfg w) = None /\
    exists evs,
      trace (snd (init_retries E n cfg w)) = trace w ++ evs /\
      attempts evs = n.
Proof.
  intros Hfail. induction n as [|n IH]; intros cfg w.
  - simpl. split; [reflexivity|]. exists []. now rewrite app_nil_r.
  - simpl. destruct (newPRNG_world cfg w) as (e1 & T1 & A1 & Hn & _).
    specialize (Hn (Hfail w)).
    destruct (newPRNG E cfg w) as [[p|] w1]; [discriminate|].
    simpl in T1. destruct (IH cfg w1) as (Hr & e2 & T2 & A2).
    split; [exact Hr|]. exists (e1 ++ e2).
    rewrite T2, T1, attempts_app, A1, A2, <- app_assoc. now split.
Qed.

Lemma init_retries_ok (n : nat) :
  (forall w0, fst (newCipher E w0) <> None) ->
  forall cfg w,
    (fst (init_retries E (S n) cfg w) <> None) /\
    exists evs,
      trace (snd (init_retries E (S n) cfg w)) = trace w ++ evs /\
      attempts evs = 1%nat.
Proof.
  intros Hok cfg w. cbn [init_retries].
  destruct (newPRNG_world cfg w) as (e1 & T1 & A1 & _ & Hs).
  specialize (Hs (Hok w)).
  destruct (newPRNG E cfg w) as [[p|] w1]; [|contradiction].
  split; [discriminate|]. exists e1. now split.
Qed.

(** The pools [NewReader] hands out hold one idle generator each. *)
Lemma NewReader_pools_shape (n : nat) :
  forall cfg made w pools w',
    NewReader_pools E n cfg made w = (Returned (inl pools), w') ->
    exists fresh,
      pools = made ++ fresh /\ length fresh = n /\
      Forall (fun pl => exists p, pool_idle pl = [p]) fresh.
Proof.
  induction n as [|n IH]; intros cfg made w pools w' H.
  - simpl in H. injection H as <- <-. exists []. rewrite app_nil_r.
    repeat split; constructor.
  - cbn [NewReader_pools] in H. unfold Pool_Get, NewReader_New in H.
    cbn [pool_idle pool_New] in H.
    destruct (init_retries E _ cfg w) as [[item|] w1]; [|discriminate].
    apply IH in H. destruct H as (fresh & -> & <- & Hf).
    eexists (_ :: fresh). rewrite <- app_assoc. split; [reflexivity|].
    split; [reflexivity|]. constructor; [|exact Hf].
    exists item. reflexivity.
Qed.


Lemma NewReader_pools_ok (n : nat) :
  (forall w0, fst (newCipher E w0) <> None) ->
  forall cfg made w,
    0 < MaxInitRetries cfg ->
    (exists pools,
       fst (NewReader_pools E n cfg made w) = Returned (inl pools)) /\
    exists evs,
      trace (snd (NewReader_pools E n cfg made w)) = trace w ++ evs /\
      attempts evs = n.
Proof.
  intros Hok. induction n as [|n IH]; intros cfg made w Hpos.
  - simpl. split; [now exists made|]. exists []. now rewrite app_nil_r.
  - cbn [NewReader_pools]. unfold Pool_Get, NewReader_New.
    cbn [pool_idle pool_New].
    destruct (Z.to_nat (MaxInitRetries cfg)) as [|k] eqn:Hk; [lia|].
    destruct (init_retries_ok k Hok cfg w) as (Hr & e1 & T1 & A1).
    destruct (init_retries E (S k) cfg w) as [[item|] w1]; [|contradiction].
    simpl in T1.
    match goal with |- context [NewReader_pools E n cfg ?m w1] =>
      destruct (IH cfg m w1 Hpos) as ((pools & Hp) & e2 & T2 & A2)
    end.
    split; [now exists pools|]. exists (e1 ++ e2).
    rewrite T2, T1, attempts_app, A1, A2, <- app_assoc. now split.
Qed.

Lemma NewReader_config_shards (opts : list Option) :
  0 < Shards (NewReader_config E opts).
Proof.
  unfold NewReader_config.
  destruct (Z.leb_spec (Shards (apply_options opts
                                  (DefaultConfig (Z.pos (GOMAXPROCS E))))) 0).
  - simpl. lia.
  - assumption.
Qed.

Lemma NewReader_unfold (opts : list Option) (w : World) :
  NewReader E opts w =
  let cfg := NewReader_config E opts in
  match NewReader_pools E (Z.to_nat (Shards cfg)) cfg [] w with
  | (Panicked e, w1) => (Panicked e, w1)
  | (Returned (inr err), w1) => (Returned (inr err), w1)
  | (Returned (inl pools), w1) =>
    (Returned (inl {| reader_config := Some cfg; reader_pools := pools |}),
     w1)
  end.
Proof. reflexivity. Qed.

End PoolFacts.

(** A factory that always succeeds builds the reader. *)
Lemma NewReader_succeeds (E : Env) (opts : list Option) (w : World) :
  (forall w0, fst (newCipher E w0) <> None) ->
  0 < MaxInitRetries (NewReader_config E opts) ->
  exists r w',
    NewReader E opts w = (Returned (inl r), w') /\ pools_ready r.
Proof.
  intros Hok Hpos. rewrite NewReader_unfold. cbv zeta.
  pose proof (NewReader_config_shards E opts) as Hsh.
  set (cfg := NewReader_config E opts) in *. clearbody cfg.
  destruct (NewReader_pools_ok E (Z.to_nat (Shards cfg)) Hok cfg [] w Hpos)
    as ((pools & Hp) & _).
  destruct (NewReader_pools E (Z.to_nat (Shards cfg)) cfg [] w)
    as [res w1] eqn:Hnp.
  simpl in Hp. subst res.
  destruct (NewReader_pools_shape E _ _ _ _ _ _ Hnp)
    as (fresh & Hf & Hlen & Hall).
  simpl in Hf. subst fresh.
  eexists. exists w1. split; [reflexivity|]. split; simpl.
  - intros ->. simpl in Hlen. lia.
  - eapply Forall_impl; [|exact Hall].
    intros pl [q Hq]. rewrite Hq. discriminate.
Qed.

Lemma init_pools_ok (E : Env) (n : nat) :
  (forall w0, fst (newCipher E w0) <> None) ->
  forall cfg made w,
    0 < MaxInitRetries cfg ->
    exists pools w',
      init_pools E n cfg made w = (Returned pools, w') /\
      length pools = (length made + n)%nat.
Proof.
  intros Hok. induction n as [|n IH]; intros cfg made w Hpos.
  - exists made, w. split; [reflexivity|]. simpl. lia.
  - cbn [init_pools]. unfold Pool_Get, init_New. cbn [pool_idle pool_New].
    destruct (Z.to_nat (MaxInitRetries cfg)) as [|k] eqn:Hk; [lia|].
    destruct (init_retries_ok E k Hok cfg w) as (Hr & _).
    destruct (init_retries E (S k) cfg w) as [[item|] w1]; [|contradiction].
    match goal with |- context [init_pools E n cfg ?m w1] =>
      destruct (IH cfg m w1 Hpos) as (pools & w' & Hp & Hlen)
    end.
    exists pools, w'. split; [exact Hp|].
    rewrite Hlen, length_app. simpl. lia.
Qed.

Lemma init_succeeds (E : Env) (w : World) :
  (forall w0, fst (newCipher E w0) <> None) ->
  exists r w',
    init E w = (Returned r, w') /\
    length (reader_pools r) = Pos.to_nat (GOMAXPROCS E).
Proof.
  intros Hok. unfold init.
  destruct (init_pools_ok E (Z.to_nat (Shards (DefaultConfig
                                                  (Z.pos (GOMAXPROCS E)))))
              Hok (DefaultConfig (Z.pos (GOMAXPROCS E))) [] w)
    as (pools & w' & Hp & Hlen); [simpl; lia|].
  rewrite Hp. eexists. exists w'. split; [reflexivity|].
  simpl. rewrite Hlen. simpl. lia.
Qed.

Lemma sample_factory_ok (w0 : World) : fst (newCipher sample_env_ok w0) <> None.
Proof. vm_compute. discriminate. Qed.



(** ** Configuration *)

Lemma option_sets_one_field (o : Recognized) (cfg : Config) (f : Field) :
  field f (to_Option o cfg) =
  if Field_eqb (target o) f then payload o else field f cfg.
Proof. destruct o, f; reflexivity. Qed.

Lemma apply_options_image (f : Field) (os : list Recognized) :
  forall cfg,
    field f (apply_options (map to_Option os) cfg) =
    image_field f os (field f cfg).
Proof.
  unfold apply_options. induction os as [|o os IH]; intros cfg; simpl.
  - reflexivity.
  - rewrite IH, option_sets_one_field. reflexivity.
Qed.

Lemma NewReader_config_image (E : Env) (os : list Recognized) (f : Field) :
  field f (NewReader_config E (map to_Option os)) =
  expected_field (Z.pos (GOMAXPROCS E)) f os.
Proof.
  unfold NewReader_config, expected_field.
  destruct f; rewrite <- apply_options_image;
    set (cfg := apply_options (map to_Option os)
                  (DefaultConfig (Z.pos (GOMAXPROCS E))));
    clearbody cfg; destruct (Shards cfg <=? 0) eqn:Hle; simpl;
    rewrite ?Hle; reflexivity.
Qed.

Lemma NewReader_config_kept (E : Env) (opts : list Option) (w : World)
  (r : reader) (w' : World) :
  NewReader E opts w = (Returned (inl r), w') ->
  reader_config r = Some (NewReader_config E opts).
Proof.
  rewrite NewReader_unfold. cbv zeta.
  destruct (NewReader_pools E _ _ [] w) as [[[pools|err]|e] w1];
    try discriminate.
  intros H. injection H as <- _. reflexivity.
Qed.

(** C6. Each recognized option sets the one field it names to its argument
    and leaves every other field as it was; and the configuration a reader
    built by [NewReader] reports holds, in every field, the argument of the
    last option naming that field, or the default when no option names it,
    except that a shard count that is not positive is replaced by the
    logical CPU count. *)
Theorem NewReader_config_round_trip (E : Env) (os : list Recognized)
  (w : World) :
  (forall o cfg f,
     field f (to_Option o cfg) =
     if Field_eqb (target o) f then payload o else field f cfg) /\
  (forall r w',
     NewReader E (map to_Option os) w = (Returned (inl r), w') ->
     exists cfg,
       reader_Config r = Returned cfg /\
       forall f, field f cfg = expected_field (Z.pos (GOMAXPROCS E)) f os).
Proof.
  split; [exact option_sets_one_field|].
  intros r w' H. apply NewReader_config_kept in H.
  exists (NewReader_config E (map to_Option os)).
  unfold reader_Config. rewrite H. split; [reflexivity|].
  intros f. apply NewReader_config_image.
Qed.

Lemma NewReader_config_round_trip_witness :
  exists r w',
    NewReader sample_env_ok
      (map to_Option [OptShards 0; OptMaxBytesPerKey 42;
                      OptZeroBuffer true; OptMaxBytesPerKey 43])
      world0 = (Returned (inl r), w') /\
    reader_Config r =
    Returned {| MaxBytesPerKey := 43; MaxInitRetries := 3;
                MaxRekeyAttempts := 5; MaxRekeyBackoff := 2 * Second;
                RekeyBackoff := 100 * Millisecond;
                EnableKeyRotation := false; UseZeroBuffer := true;
                DefaultBufferSize := 64; Shards := 4 |}.
Proof.
  destruct (NewReader_succeeds sample_env_ok
              (map to_Option [OptShards 0; OptMaxBytesPerKey 42;
                              OptZeroBuffer true; OptMaxBytesPerKey 43])
              world0 sample_factory_ok) as (r & w' & H & _);
    [reflexivity|].
  exists r, w'. split; [exact H|].
  destruct (proj2 (NewReader_config_round_trip sample_env_ok
                     [OptShards 0; OptMaxBytesPerKey 42;
                      OptZeroBuffer true; OptMaxBytesPerKey 43] world0)
              r w' H) as (cfg & Hc & Hf).
  rewrite Hc. f_equal.
  pose proof (Hf FMaxBytesPerKey) as H1.
  pose proof (Hf FMaxInitRetries) as H2.
  pose proof (Hf FMaxRekeyAttempts) as H3.
  pose proof (Hf FMaxRekeyBackoff) as H4.
  pose proof (Hf FRekeyBackoff) as H5.
  pose proof (Hf FEnableKeyRotation) as H6.
  pose proof (Hf FUseZeroBuffer) as H7.
  pose proof (Hf FDefaultBufferSize) as H8.
  pose proof (Hf FShards) as H9.
  destruct cfg. vm_compute in H1, H2, H3, H4, H5, H6, H7, H8, H9.
  vm_compute. congruence.
Defined.

(** ** The reader *)

Section ReaderFacts.

Variable E : Env.

Lemma pick_shard_in_range (r : reader) (w : World) :
  reader_pools r <> [] ->
  (fst (pick_shard E r w) < length (reader_pools r))%nat.
Proof.
  intros Hne. unfold pick_shard.
  destruct (reader_pools r) as [|pl pls] eqn:Hp; [congruence|].
  destruct (1 <? length (pl :: pls))%nat eqn:Hn.
  - unfold shardIndex. cbn [fst].
    pose proof (Z.mod_pos_bound (mrand_source E (mrand_calls w))
                  (Z.of_nat (length (pl :: pls)))) as Hm.
    simpl length in *. lia.
  - simpl. lia.
Qed.

Lemma reader_Read_empty (r : reader) (w : World) :
  reader_Read E r [] w = (Returned (0%nat, None), r, [], w).
Proof. reflexivity. Qed.

(** [Read] on a buffer that is not empty, by what the borrow gives. *)
Lemma reader_Read_nonempty (r : reader) (b : list byte) (w : World) :
  b <> [] ->
  reader_Read E r b w =
  let shard := fst (pick_shard E r w) in
  let w1 := snd (pick_shard E r w) in
  match nth_error (reader_pools r) shard with
  | None => (Panicked IndexOutOfRange, r, b, w1)
  | Some pl =>
    match Pool_Get pl w1 with
    | (Panicked e, pl1, w2) => (Panicked e, set_pool r shard pl1, b, w2)
    | (Returned None, pl1, w2) =>
      (Panicked NilInterfaceConversion, set_pool r shard pl1, b, w2)
    | (Returned (Some p), pl1, w2) =>
      (fst (fst (fst (prng_Read E p b w2))),
       set_pool r shard (Pool_Put pl1 (snd (fst (fst (prng_Read E p b w2))))),
       snd (fst (prng_Read E p b w2)), snd (prng_Read E p b w2))
    end
  end.
Proof.
  intros Hb. unfold reader_Read, pick_shard.
  destruct b as [|b0 b']; [congruence|]. cbn [length Nat.eqb].
  destruct (1 <? length (reader_pools r))%nat;
    [destruct (shardIndex E _ w) as [shard w1] | ]; cbn [fst snd];
    (destruct (nth_error (reader_pools r) _) as [pl|]; [|reflexivity];
     destruct (Pool_Get pl _) as [[[[p|]|e] pl1] w2]; try reflexivity;
     destruct (prng_Read E p (b0 :: b') w2) as [[[res p1] b1] w3];
     reflexivity).
Qed.



Lemma reader_Read_config (r : reader) (b : list byte) (w : World) :
  reader_config (snd (fst (fst (reader_Read E r b w)))) = reader_config r.
Proof.
  destruct b as [|b0 b']; [reflexivity|].
  rewrite reader_Read_nonempty by discriminate. cbv zeta.
  destruct (nth_error (reader_pools r) _) as [pl|]; [|reflexivity].
  destruct (Pool_Get pl _) as [[[[p|]|e] pl1] w2]; reflexivity.
Qed.

End ReaderFacts.




(** ** The configuration a reader holds *)

Lemma asyncRekey_config (E : Env) (p : prng) (w : World) :
  prng_config (snd (fst (asyncRekey E p w))) = prng_config p.
Proof.
  rewrite asyncRekey_unfold. cbv zeta.
  destruct (rekey_loop E _ _ _ p w) as [[e p1] w1] eqn:Hl.
  apply rekey_loop_shape in Hl. destruct Hl as (evs & _ & _ & He).
  cbn [fst snd]. destruct e.
  - destruct He as (pre & new & _ & _ & -> & _). reflexivity.
  - destruct He as (_ & -> & _). reflexivity.
  - destruct He as (_ & _ & -> & _). reflexivity.
Qed.

Lemma init_reader_config (E : Env) (w : World) (r : reader) (w' : World) :
  init E w = (Returned r, w') -> reader_config r = None.
Proof.
  unfold init.
  destruct (init_pools E _ _ [] w) as [[pools|e] w1]; [|discriminate].
  intros H. injection H as <- _. reflexivity.
Qed.

(** C7, where the code departs from it. The reader that [init] stores in
    the package variable [Reader] holds no configuration: its [config]
    pointer is nil, and [Config] on it panics instead of returning a copy.
    For the readers of [NewReader] the claim holds: see
    [NewReader_config_kept], [reader_Read_config], [prng_Read_config] and
    [asyncRekey_config]. *)
Theorem default_reader_Config_panics (E : Env) (w : World) (r : reader)
  (w' : World) :
  init E w = (Returned r, w') ->
  reader_Config r = Panicked NilPointerDereference.
Proof.
  intros H. unfold reader_Config. now rewrite (init_reader_config E w r w' H).
Qed.

Lemma default_reader_Config_panics_witness :
  exists r w',
    init sample_env_ok world0 = (Returned r, w') /\
    length (reader_pools r) = 4%nat /\
    reader_Config r = Panicked NilPointerDereference.
Proof.
  destruct (init_succeeds sample_env_ok world0 sample_factory_ok)
    as (r & w' & H & Hlen).
  exists r, w'. split; [exact H|]. split; [exact Hlen|].
  exact (default_reader_Config_panics sample_env_ok world0 r w' H).
Defined.

(** * Further properties of the code *)

(** ** Options *)

(** An option makes an earlier option naming the same field void, and two
    options naming different fields can be applied in either order. *)
Theorem options_override_and_commute (o1 o2 : Recognized) (cfg : Config) :
  (target o1 = target o2 ->
   to_Option o2 (to_Option o1 cfg) = to_Option o2 cfg) /\
  (target o1 <> target o2 ->
   to_Option o2 (to_Option o1 cfg) = to_Option o1 (to_Option o2 cfg)).
Proof.
  split; intros H; destruct o1, o2; simpl in H;
    try discriminate; try congruence; reflexivity.
Qed.

Lemma options_override_and_commute_witness :
  WithShards 2 (WithShards 8 (DefaultConfig 4)) =
    WithShards 2 (DefaultConfig 4) /\
  WithShards 2 (WithZeroBuffer true (DefaultConfig 4)) =
    WithZeroBuffer true (WithShards 2 (DefaultConfig 4)).
Proof.
  split.
  - apply (proj1 (options_override_and_commute (OptShards 8) (OptShards 2)
                    (DefaultConfig 4))). reflexivity.
  - apply (proj2 (options_override_and_commute (OptZeroBuffer true)
                    (OptShards 2) (DefaultConfig 4))). discriminate.
Defined.

(** ** The cipher factory *)

Lemma rand_ReadFull_enough (E : Env) (n : nat) (w : World) (bs : list byte) :
  rand_Reader E (rand_reads w) = Some bs -> (n <= length bs)%nat ->
  fst (rand_ReadFull E n w) = Some (firstn n bs).
Proof.
  intros H Hn. unfold rand_ReadFull. cbn [fst]. rewrite H.
  apply Nat.leb_le in Hn. now rewrite Hn.
Qed.

Lemma rand_ReadFull_reads (E : Env) (n : nat) (w : World) :
  rand_reads (snd (rand_ReadFull E n w)) = S (rand_reads w) /\
  mrand_calls (snd (rand_ReadFull E n w)) = mrand_calls w.
Proof. split; reflexivity. Qed.

(** When the entropy source has at least 32 bytes for the key read and at
    least 24 for the nonce read that follows it, [newCipher] succeeds: the
    cipher is a new object, built from the first 32 and the first 24 of
    those bytes, at keystream position 0; every cipher that existed is left
    as it was, and exactly two entropy reads are made. *)
Theorem newCipher_success (E : Env) (w : World) (bs1 bs2 : list byte) :
  rand_Reader E (rand_reads w) = Some bs1 -> (32 <= length bs1)%nat ->
  rand_Reader E (S (rand_reads w)) = Some bs2 -> (24 <= length bs2)%nat ->
  let w' := snd (newCipher E w) in
  fst (newCipher E w) = Some (heap_next w) /\
  heap w' (heap_next w) =
    {| cipher_key := firstn 32 bs1; cipher_nonce := firstn 24 bs2;
       cipher_pos := 0 |} /\
  (forall a, a <> heap_next w -> heap w' a = heap w a) /\
  heap_next w' = S (heap_next w) /\
  rand_reads w' = (rand_reads w + 2)%nat.
Proof.
  intros H1 L1 H2 L2. cbv zeta. unfold newCipher.
  pose proof (rand_ReadFull_enough E KeySize w bs1 H1 L1) as R1.
  destruct (rand_ReadFull_reads E KeySize w) as [C1 _].
  pose proof (rand_ReadFull_world E KeySize w) as (_ & P1 & N1).
  destruct (rand_ReadFull E KeySize w) as [r1 w1].
  cbn [fst snd] in *. subst r1. rewrite <- C1 in H2.
  pose proof (rand_ReadFull_enough E NonceSizeX w1 bs2 H2 L2) as R2.
  destruct (rand_ReadFull_reads E NonceSizeX w1) as [C2 _].
  pose proof (rand_ReadFull_world E NonceSizeX w1) as (_ & P2 & N2).
  destruct (rand_ReadFull E NonceSizeX w1) as [r2 w2].
  cbn [fst snd] in *. subst r2.
  unfold NewUnauthenticatedCipher.
  rewrite !length_firstn.
  replace (Nat.min KeySize (length bs1)) with KeySize
    by (unfold KeySize; lia).
  replace (Nat.min NonceSizeX (length bs2)) with NonceSizeX
    by (unfold NonceSizeX; lia).
  rewrite !Nat.eqb_refl. simpl. rewrite N2, N1, Nat.eqb_refl.
  repeat split; try lia.
  intros a Ha. apply Nat.eqb_neq in Ha. now rewrite Ha, P2, P1.
Qed.

Lemma newCipher_success_witness :
  fst (newCipher sample_env_ok world0) = Some 0%nat /\
  cipher_pos (heap (snd (newCipher sample_env_ok world0)) 0) = 0%nat /\
  length (cipher_key (heap (snd (newCipher sample_env_ok world0)) 0)) =
  32%nat.
Proof.
  destruct (newCipher_success sample_env_ok world0
              (repeat x00 64) (repeat x01 64))
    as (H1 & H2 & _); try reflexivity; try (simpl; lia).
  split; [exact H1|]. change (heap_next world0) with 0%nat in H2.
  rewrite H2. split; reflexivity.
Defined.

(** When the key read fails or is short, [newCipher] returns an error
    after that single entropy read, without attempting the nonce; when the
    key read succeeds and the nonce read fails or is short, it returns an
    error after two reads. In both cases no cipher object is created or
    changed. *)
Theorem newCipher_failure (E : Env) (w : World) :
  let w' := snd (newCipher E w) in
  let short n t :=
    match rand_Reader E t with
    | Some bs => (length bs < n)%nat
    | None => True
    end in
  (short 32%nat (rand_reads w) ->
   fst (newCipher E w) = None /\ rand_reads w' = S (rand_reads w) /\
   heap w' = heap w /\ heap_next w' = heap_next w) /\
  (~ short 32%nat (rand_reads w) -> short 24%nat (S (rand_reads w)) ->
   fst (newCipher E w) = None /\ rand_reads w' = S (S (rand_reads w)) /\
   heap w' = heap w /\ heap_next w' = heap_next w).
Proof.
  cbv zeta. unfold newCipher, rand_ReadFull. split.
  - intros Hs. destruct (rand_Reader E (rand_reads w)) as [bs|].
    + apply Nat.leb_gt in Hs. unfold KeySize. rewrite Hs. simpl. auto.
    + simpl. auto.
  - intros Hk Hs. destruct (rand_Reader E (rand_reads w)) as [bs|];
      [|tauto].
    apply Nat.nlt_ge, Nat.leb_le in Hk. unfold KeySize. rewrite Hk.
    cbn [rand_reads].
    destruct (rand_Reader E (S (rand_reads w))) as [bs2|].
    + apply Nat.leb_gt in Hs. unfold NonceSizeX. rewrite Hs. simpl. auto.
    + simpl. auto.
Qed.

Lemma newCipher_failure_witness :
  fst (newCipher sample_env_short world0) = None /\
  rand_reads (snd (newCipher sample_env_short world0)) = 1%nat /\
  fst (newCipher (env_of (entropy_first 1)) world0) = None /\
  rand_reads (snd (newCipher (env_of (entropy_first 1)) world0)) = 2%nat.
Proof.
  destruct (proj1 (newCipher_failure sample_env_short world0))
    as (H1 & H2 & _); [simpl; lia|].
  destruct (proj2 (newCipher_failure (env_of (entropy_first 1)) world0))
    as (H3 & H4 & _); [simpl; lia | exact I |].
  repeat split; assumption.
Defined.

(** A generator [newPRNG] returns is fresh: it holds the given
    configuration and the cipher [newCipher] just built, [usage] and
    [rekeying] are 0, and its scratch buffer has length and capacity
    [DefaultBufferSize] when the zero buffer is enabled and that size is
    positive, and is empty otherwise (a negative size is never passed to
    [make]). [newPRNG] fails exactly when [newCipher] does. *)
Theorem newPRNG_fresh (E : Env) (cfg : Config) (w : World) :
  (fst (newPRNG E cfg w) = None <-> fst (newCipher E w) = None) /\
  forall p,
    fst (newPRNG E cfg w) = Some p ->
    prng_config p = cfg /\
    fst (newCipher E w) = Some (prng_cipher p) /\
    prng_usage p = 0 /\ prng_rekeying p = 0 /\
    slice_len (prng_zero p) = cap (prng_zero p) /\
    Z.of_nat (cap (prng_zero p)) =
      (if UseZeroBuffer cfg then Z.max 0 (DefaultBufferSize cfg) else 0).
Proof.
  unfold newPRNG. destruct (newCipher E w) as [[stream|] w1]; cbn [fst].
  - split; [split; discriminate|]. intros p H. injection H as <-.
    cbn [prng_config prng_cipher prng_usage prng_rekeying prng_zero
         set_cipher].
    repeat split; unfold cap;
      destruct (UseZeroBuffer cfg); cbn [andb];
      try destruct (Z.ltb_spec 0 (DefaultBufferSize cfg));
      cbn [make_slice slice_len slice_array]; unfold make_bytes;
      rewrite ?repeat_length; try reflexivity; simpl; lia.
  - split; [split; reflexivity|]. discriminate.
Qed.

Lemma newPRNG_fresh_witness :
  exists p,
    fst (newPRNG sample_env_ok
           (WithDefaultBufferSize (-5) (WithZeroBuffer true (DefaultConfig 4)))
           world0) = Some p /\
    prng_usage p = 0 /\ cap (prng_zero p) = 0%nat.
Proof.
  destruct (newPRNG sample_env_ok
              (WithDefaultBufferSize (-5)
                 (WithZeroBuffer true (DefaultConfig 4))) world0)
    as [[p|] w'] eqn:H.
  - exists p. split; [reflexivity|].
    destruct (proj2 (newPRNG_fresh sample_env_ok
                       (WithDefaultBufferSize (-5)
                          (WithZeroBuffer true (DefaultConfig 4))) world0) p)
      as (_ & _ & Hu & _ & _ & Hc); [now rewrite H|].
    split; [exact Hu|]. simpl in Hc. lia.
  - exfalso.
    apply (f_equal fst) in H. cbn [fst] in H.
    apply (proj1 (newPRNG_fresh sample_env_ok _ world0)) in H.
    exact (sample_factory_ok world0 H).
Defined.

(** ** The keystream position *)

Lemma track_usage_world (p1 : prng) (n : nat) (w1 : World) :
  heap_next (snd (track_usage p1 n w1)) = heap_next w1 /\
  rand_reads (snd (track_usage p1 n w1)) = rand_reads w1 /\
  mrand_calls (snd (track_usage p1 n w1)) = mrand_calls w1.
Proof.
  unfold track_usage.
  repeat match goal with |- context [if ?c then _ else _] => destruct c end;
    repeat split; reflexivity.
Qed.

Lemma prng_Read_cipher (E : Env) (p : prng) (b : list byte) (w : World) :
  prng_cipher (snd (fst (fst (prng_Read E p b w)))) = prng_cipher p.
Proof.
  destruct b as [|b0 b']; [reflexivity|].
  rewrite prng_Read_nonempty by discriminate. cbv zeta.
  match goal with |- context [track_usage ?a ?n ?x] =>
    pose proof (track_usage_cipher a n x) as Hz;
    destruct (track_usage a n x) end.
  simpl in *. rewrite Hz. now destruct (UseZeroBuffer (prng_config p)).
Qed.

Lemma prng_Read_heap_at (E : Env) (p : prng) (b : list byte) (w : World) :
  heap (snd (prng_Read E p b w)) (prng_cipher p) =
    {| cipher_key := cipher_key (heap w (prng_cipher p));
       cipher_nonce := cipher_nonce (heap w (prng_cipher p));
       cipher_pos := cipher_pos (heap w (prng_cipher p)) + length b |} /\
  forall a, a <> prng_cipher p ->
            heap (snd (prng_Read E p b w)) a = heap w a.
Proof.
  destruct b as [|b0 b'].
  - simpl. split; [|reflexivity].
    destruct (heap w (prng_cipher p)); simpl. f_equal. lia.
  - rewrite prng_Read_heap by discriminate. unfold advance. simpl.
    rewrite Nat.eqb_refl. split; [reflexivity|].
    intros a Ha. apply Nat.eqb_neq in Ha. now rewrite Ha.
Qed.

Lemma prng_Read_counters (E : Env) (p : prng) (b : list byte) (w : World) :
  heap_next (snd (prng_Read E p b w)) = heap_next w /\
  rand_reads (snd (prng_Read E p b w)) = rand_reads w /\
  mrand_calls (snd (prng_Read E p b w)) = mrand_calls w.
Proof.
  destruct b as [|b0 b']; [repeat split; reflexivity|].
  rewrite prng_Read_nonempty by discriminate. cbv zeta.
  match goal with |- context [track_usage ?a ?n ?x] =>
    pose proof (track_usage_world a n x) as Hz;
    destruct (track_usage a n x) end.
  exact Hz.
Qed.

Lemma prng_Read_length (E : Env) (p : prng) (b : list byte) (w : World) :
  length (snd (fst (prng_Read E p b w))) = length b.
Proof.
  rewrite prng_Read_output, xor_bytes_length, next_keystream_length.
  destruct (UseZeroBuffer (prng_config p)).
  - rewrite zero_for_length. lia.
  - lia.
Qed.

(** A [Read] writes exactly [len(b)] bytes, keeps the generator's cipher
    reference, advances the active cipher by [len(b)] keystream bytes
    without touching its key or nonce, leaves every other cipher object as
    it was, creates no cipher and draws no system entropy. *)
Theorem Read_advances_only_active_cipher (E : Env) (p : prng)
  (b : list byte) (w : World) :
  let p' := snd (fst (fst (prng_Read E p b w))) in
  let b' := snd (fst (prng_Read E p b w)) in
  let w' := snd (prng_Read E p b w) in
  let c := prng_cipher p in
  length b' = length b /\
  prng_cipher p' = c /\
  cipher_key (heap w' c) = cipher_key (heap w c) /\
  cipher_nonce (heap w' c) = cipher_nonce (heap w c) /\
  cipher_pos (heap w' c) = (cipher_pos (heap w c) + length b)%nat /\
  (forall a, a <> c -> heap w' a = heap w a) /\
  heap_next w' = heap_next w /\
  rand_reads w' = rand_reads w.
Proof.
  cbv zeta. destruct (prng_Read_heap_at E p b w) as [Hat Hother].
  destruct (prng_Read_counters E p b w) as (Hn & Hr & _).
  rewrite Hat. simpl.
  repeat split; auto using prng_Read_length, prng_Read_cipher.
Qed.

Lemma Read_advances_only_active_cipher_witness :
  cipher_pos (heap (snd (prng_Read sample_env_ok sample_rotating_prng
                           [x01; x02; x03] sample_world)) 0) = 8%nat /\
  heap (snd (prng_Read sample_env_ok sample_rotating_prng [x01; x02; x03]
               sample_world)) 1 = heap sample_world 1.
Proof.
  destruct (Read_advances_only_active_cipher sample_env_ok
              sample_rotating_prng [x01; x02; x03] sample_world)
    as (_ & _ & _ & _ & Hpos & Hother & _).
  split; [exact Hpos|]. apply Hother. discriminate.
Defined.

Lemma next_keystream_app (E : Env) (c : Cipher) (n1 n2 : nat) :
  next_keystream E c (n1 + n2) =
  next_keystream E c n1 ++
  next_keystream E {| cipher_key := cipher_key c;
                      cipher_nonce := cipher_nonce c;
                      cipher_pos := cipher_pos c + n1 |} n2.
Proof.
  unfold next_keystream. simpl. now rewrite seq_app, map_app.
Qed.

Lemma xor_bytes_app (s1 s2 k1 k2 : list byte) :
  length s1 = length k1 ->
  xor_bytes (s1 ++ s2) (k1 ++ k2) = xor_bytes s1 k1 ++ xor_bytes s2 k2.
Proof.
  revert k1. induction s1 as [|s s1 IH]; intros [|k k1] H; simpl in *;
    try discriminate; [reflexivity|].
  f_equal. apply IH. lia.
Qed.

Lemma prng_Read_use_zero (E : Env) (p : prng) (b : list byte) (w : World) :
  UseZeroBuffer (prng_config (snd (fst (fst (prng_Read E p b w))))) =
  UseZeroBuffer (prng_config p).
Proof. now rewrite prng_Read_config. Qed.

Lemma prng_Read_bytes (E : Env) (p : prng) (b : list byte) (w : World) :
  all_zero (slice_array (prng_zero p)) ->
  snd (fst (prng_Read E p b w)) =
  xor_bytes (if UseZeroBuffer (prng_config p)
             then make_bytes (length b) else b)
            (next_keystream E (heap w (prng_cipher p)) (length b)).
Proof.
  intros Hz. rewrite prng_Read_output.
  destruct (UseZeroBuffer (prng_config p)); [|reflexivity].
  rewrite (xor_bytes_zero_l (slice_bytes _))
    by (apply all_zero_firstn, zero_for_all_zero, Hz).
  rewrite (xor_bytes_zero_l (make_bytes _)) by apply all_zero_make_bytes.
  rewrite zero_for_length. unfold make_bytes. now rewrite repeat_length.
Qed.

Lemma prng_Read_zero_kept (E : Env) (p : prng) (b : list byte) (w : World) :
  all_zero (slice_array (prng_zero p)) ->
  all_zero (slice_array (prng_zero (snd (fst (fst (prng_Read E p b w)))))).
Proof.
  intros Hz. rewrite prng_Read_zero.
  destruct (UseZeroBuffer (prng_config p) && negb (length b =? 0)%nat);
    auto using zero_for_all_zero.
Qed.

(** Two successive [Read]s of one generator give the bytes one [Read] of
    the two buffers joined would give: the second continues the keystream
    where the first stopped, with no gap and no reuse, in both modes. *)
Theorem Read_keystream_contiguous (E : Env) (p : prng) (b1 b2 : list byte)
  (w : World) :
  all_zero (slice_array (prng_zero p)) ->
  let p1 := snd (fst (fst (prng_Read E p b1 w))) in
  let w1 := snd (prng_Read E p b1 w) in
  snd (fst (prng_Read E p (b1 ++ b2) w)) =
  snd (fst (prng_Read E p b1 w)) ++ snd (fst (prng_Read E p1 b2 w1)).
Proof.
  intros Hz. cbv zeta.
  rewrite (prng_Read_bytes E p (b1 ++ b2) w Hz).
  rewrite (prng_Read_bytes E p b1 w Hz).
  rewrite (prng_Read_bytes E _ b2 _ (prng_Read_zero_kept E p b1 w Hz)).
  rewrite prng_Read_config, prng_Read_cipher.
  rewrite (proj1 (prng_Read_heap_at E p b1 w)).
  rewrite length_app, next_keystream_app.
  destruct (UseZeroBuffer (prng_config p)).
  - unfold make_bytes. rewrite repeat_app.
    apply xor_bytes_app. now rewrite repeat_length, next_keystream_length.
  - apply xor_bytes_app. now rewrite next_keystream_length.
Qed.

Lemma Read_keystream_contiguous_witness :
  snd (fst (prng_Read sample_env_ok sample_rotating_prng
              ([x01; x02] ++ [x03; x04; x05]) sample_world)) =
  snd (fst (prng_Read sample_env_ok sample_rotating_prng [x01; x02]
              sample_world)) ++
  snd (fst (prng_Read sample_env_ok
              (snd (fst (fst (prng_Read sample_env_ok sample_rotating_prng
                                [x01; x02] sample_world))))
              [x03; x04; x05]
              (snd (prng_Read sample_env_ok sample_rotating_prng [x01; x02]
                      sample_world)))).
Proof.
  apply (Read_keystream_contiguous sample_env_ok sample_rotating_prng
           [x01; x02] [x03; x04; x05] sample_world).
  apply all_zero_make_bytes.
Defined.

(** ** Sequences of reads *)

Lemma spawns_app (a b : list Event) :
  spawns (a ++ b) = (spawns a + spawns b)%nat.
Proof. unfold spawns. now rewrite flat_map_app, length_app. Qed.

(** One [Read] either starts the worker, taking [rekeying] from 0 to 1, or
    adds nothing to the trace and keeps [rekeying]. *)
Lemma prng_Read_spawn (E : Env) (p : prng) (b : list byte) (w : World) :
  let p' := snd (fst (fst (prng_Read E p b w))) in
  let w' := snd (prng_Read E p b w) in
  (trace w' = trace w ++ [EvGo] /\ prng_rekeying p = 0 /\
   prng_rekeying p' = 1) \/
  (trace w' = trace w /\ prng_rekeying p' = prng_rekeying p).
Proof.
  cbv zeta. destruct b as [|b0 b']; [right; split; reflexivity|].
  destruct (prng_Read_tracking E p (b0 :: b') w) as [Hp Hw];
    [discriminate|].
  cbv zeta in Hp, Hw. rewrite Hp, Hw. clear Hp Hw.
  set (p1 := if UseZeroBuffer (prng_config p)
             then set_zero (zero_for p (length (b0 :: b'))) p else p).
  assert (Hr : prng_rekeying p1 = prng_rekeying p)
    by (subst p1; now destruct (UseZeroBuffer (prng_config p))).
  clearbody p1. unfold track_usage, AddUint64_usage.
  destruct (EnableKeyRotation (prng_config p1)); [|right; now split].
  cbn [prng_config set_usage prng_usage prng_rekeying].
  match goal with |- context [?a <? ?u] => destruct (a <? u) end;
    [|right; now split].
  destruct (Z.eqb_spec (prng_rekeying p1) 0) as [H0|H0].
  - left. simpl. repeat split; congruence.
  - right. now split.
Qed.

Lemma prng_Read_usage (E : Env) (p : prng) (b : list byte) (w : World) :
  0 <= prng_usage p < 2 ^ 64 ->
  prng_usage (snd (fst (fst (prng_Read E p b w)))) =
  if EnableKeyRotation (prng_config p)
  then (prng_usage p + Z.of_nat (length b)) mod 2 ^ 64
  else prng_usage p.
Proof.
  intros Hu. destruct b as [|b0 b'].
  - simpl. rewrite Z.add_0_r, Z.mod_small by lia.
    now destruct (EnableKeyRotation (prng_config p)).
  - destruct (prng_Read_tracking E p (b0 :: b') w) as [Hp _];
      [discriminate|].
    cbv zeta in Hp. rewrite Hp. clear Hp.
    set (p1 := if UseZeroBuffer (prng_config p)
               then set_zero (zero_for p (length (b0 :: b'))) p else p).
    assert (Hc : prng_config p1 = prng_config p)
      by (subst p1; now destruct (UseZeroBuffer (prng_config p))).
    assert (Hus : prng_usage p1 = prng_usage p)
      by (subst p1; now destruct (UseZeroBuffer (prng_config p))).
    clearbody p1. unfold track_usage, AddUint64_usage. rewrite Hc.
    destruct (EnableKeyRotation (prng_config p)); [|exact Hus].
    assert (Hgoal : uint64 (prng_usage p1 +
                            uint64 (Z.of_nat (length (b0 :: b')))) =
                    (prng_usage p + Z.of_nat (length (b0 :: b'))) mod 2 ^ 64).
    { unfold uint64. rewrite Hus. now rewrite Zplus_mod_idemp_r. }
    cbn [prng_config set_usage prng_usage].
    repeat match goal with |- context [if ?c then _ else _] =>
      destruct c end; exact Hgoal.
Qed.

Lemma prng_Reads_unfold (E : Env) (p : prng) (b : list byte)
  (rest : list (list byte)) (w : World) :
  prng_Reads E p (b :: rest) w =
  let p1 := snd (fst (fst (prng_Read E p b w))) in
  let w1 := snd (prng_Read E p b w) in
  (snd (fst (prng_Read E p b w)) :: fst (fst (prng_Reads E p1 rest w1)),
   snd (fst (prng_Reads E p1 rest w1)), snd (prng_Reads E p1 rest w1)).
Proof.
  cbn [prng_Reads]. destruct (prng_Read E p b w) as [[[res p1] b1] w1].
  cbn [fst snd]. destruct (prng_Reads E p1 rest w1) as [[outs p2] w2].
  reflexivity.
Qed.

(** However many [Read]s follow one another on a generator while no worker
    finishes, at most one worker is started; none is started while
    [rekeying] is already set; and after a start [rekeying] is 1. *)
Theorem Reads_start_at_most_one_worker (E : Env) (bs : list (list byte)) :
  forall p w,
    let p' := snd (fst (prng_Reads E p bs w)) in
    let evs := new_events w (snd (prng_Reads E p bs w)) in
    (spawns evs <= 1)%nat /\
    (prng_rekeying p <> 0 ->
     spawns evs = 0%nat /\ prng_rekeying p' = prng_rekeying p) /\
    (spawns evs = 1%nat -> prng_rekeying p' = 1).
Proof.
  cbv zeta.
  assert (Hgen : forall p w,
            exists evs,
              trace (snd (prng_Reads E p bs w)) = trace w ++ evs /\
              ((spawns evs = 0%nat /\
                prng_rekeying (snd (fst (prng_Reads E p bs w))) =
                prng_rekeying p) \/
               (spawns evs = 1%nat /\ prng_rekeying p = 0 /\
                prng_rekeying (snd (fst (prng_Reads E p bs w))) = 1))).
  { induction bs as [|b rest IH]; intros p w.
    - exists []. simpl. rewrite app_nil_r. split; [reflexivity|].
      left. split; reflexivity.
    - rewrite prng_Reads_unfold. cbv zeta. cbn [fst snd].
      destruct (IH (snd (fst (fst (prng_Read E p b w))))
                  (snd (prng_Read E p b w))) as (evs & Te & Hc).
      destruct (prng_Read_spawn E p b w) as [(Tr & H0 & H1) | (Tr & Hk)].
      + exists ([EvGo] ++ evs). rewrite Te, Tr, <- app_assoc.
        split; [reflexivity|]. right. rewrite spawns_app.
        destruct Hc as [(S0 & Hr) | (S1 & Hz & _)]; [|lia].
        rewrite S0, Hr. repeat split; auto.
      + exists evs. rewrite Te, Tr. split; [reflexivity|].
        rewrite <- Hk. exact Hc. }
  intros p w. destruct (Hgen p w) as (evs & Te & Hc).
  rewrite (new_events_app _ _ _ Te).
  destruct Hc as [(S0 & Hr) | (S1 & Hz & H1)].
  - rewrite S0. repeat split; auto; lia.
  - rewrite S1. repeat split; auto; try lia; congruence.
Qed.

Lemma Reads_start_at_most_one_worker_witness :
  spawns (new_events sample_world
            (snd (prng_Reads sample_env_ok sample_rotating_prng
                    [[x00; x00; x00; x00; x00]; [x00]; [x00; x00]]
                    sample_world))) = 1%nat /\
  prng_rekeying (snd (fst (prng_Reads sample_env_ok sample_rotating_prng
                             [[x00; x00; x00; x00; x00]; [x00]; [x00; x00]]
                             sample_world))) = 1.
Proof.
  assert (H : spawns (new_events sample_world
                (snd (prng_Reads sample_env_ok sample_rotating_prng
                        [[x00; x00; x00; x00; x00]; [x00]; [x00; x00]]
                        sample_world))) = 1%nat) by reflexivity.
  split; [exact H|].
  exact (proj2 (proj2 (Reads_start_at_most_one_worker sample_env_ok
                         [[x00; x00; x00; x00; x00]; [x00]; [x00; x00]]
                         sample_rotating_prng sample_world)) H).
Defined.

(** With key rotation enabled, [usage] after a sequence of [Read]s is the
    [usage] before plus the number of bytes read, modulo 2^64; with key
    rotation disabled it is never changed. *)
Theorem Reads_count_every_byte (E : Env) (bs : list (list byte)) :
  forall p w,
    0 <= prng_usage p < 2 ^ 64 ->
    prng_usage (snd (fst (prng_Reads E p bs w))) =
    if EnableKeyRotation (prng_config p)
    then (prng_usage p + Z.of_nat (length (concat bs))) mod 2 ^ 64
    else prng_usage p.
Proof.
  induction bs as [|b rest IH]; intros p w Hu.
  - simpl. rewrite Z.add_0_r, Z.mod_small by lia.
    now destruct (EnableKeyRotation (prng_config p)).
  - rewrite prng_Reads_unfold. cbv zeta. cbn [fst snd].
    pose proof (prng_Read_usage E p b w Hu) as H1.
    rewrite IH.
    + rewrite prng_Read_config, H1.
      destruct (EnableKeyRotation (prng_config p)); [|reflexivity].
      simpl concat. rewrite length_app, Nat2Z.inj_add.
      rewrite Zplus_mod_idemp_l. f_equal. lia.
    + rewrite H1. destruct (EnableKeyRotation (prng_config p)); [|lia].
      apply Z.mod_pos_bound. lia.
Qed.

Lemma Reads_count_every_byte_witness :
  prng_usage (snd (fst (prng_Reads sample_env_ok sample_rotating_prng
                          [[x00; x00; x00; x00; x00]; [x00]; [x00; x00]]
                          sample_world))) = 68.
Proof.
  rewrite (Reads_count_every_byte sample_env_ok
             [[x00; x00; x00; x00; x00]; [x00]; [x00; x00]]
             sample_rotating_prng sample_world).
  - reflexivity.
  - simpl. lia.
Defined.

(** ** Shards *)

Lemma list_set_length {A : Type} (l : list A) (i : nat) (x : A) :
  length (list_set l i x) = length l.
Proof.
  revert i. induction l as [|h t IH]; intros [|i]; simpl; auto.
Qed.

Lemma list_set_other {A : Type} (l : list A) (i j : nat) (x : A) :
  j <> i -> nth_error (list_set l i x) j = nth_error l j.
Proof.
  revert i j. induction l as [|h t IH]; intros [|i] [|j] H; simpl; auto;
    try congruence.
Qed.

Lemma list_set_same {A : Type} (l : list A) (i : nat) (x : A) :
  (i < length l)%nat -> nth_error (list_set l i x) i = Some x.
Proof.
  revert i. induction l as [|h t IH]; intros [|i] H; simpl in *;
    try lia; auto. apply IH. lia.
Qed.

Lemma list_set_id {A : Type} (l : list A) (i : nat) (x : A) :
  nth_error l i = Some x -> list_set l i x = l.
Proof.
  revert i. induction l as [|h t IH]; intros [|i] H; simpl in *;
    try discriminate.
  - now injection H as ->.
  - f_equal. now apply IH.
Qed.

(** A [Read] of the reader touches one shard only: the number of pools is
    kept, every pool but the picked one is left as it was, and when the
    picked pool had idle generators it has as many afterwards, the one it
    lent being back in it with the same configuration and cipher
    reference. *)
Theorem reader_Read_touches_one_shard (E : Env) (r : reader)
  (b : list byte) (w : World) :
  let r' := snd (fst (fst (reader_Read E r b w))) in
  let shard := fst (pick_shard E r w) in
  length (reader_pools r') = length (reader_pools r) /\
  (forall i, i <> shard ->
     nth_error (reader_pools r') i = nth_error (reader_pools r) i) /\
  (forall pl p rest,
     b <> [] ->
     nth_error (reader_pools r) shard = Some pl ->
     pool_idle pl = p :: rest ->
     exists p',
       nth_error (reader_pools r') shard =
         Some {| pool_idle := p' :: rest; pool_New := pool_New pl |} /\
       prng_config p' = prng_config p /\ prng_cipher p' = prng_cipher p).
Proof.
  cbv zeta. destruct b as [|b0 b'].
  - rewrite reader_Read_empty. cbn [fst snd].
    split; [reflexivity|]. split; [reflexivity|]. congruence.
  - rewrite reader_Read_nonempty by discriminate. cbv zeta.
    destruct (nth_error (reader_pools r) (fst (pick_shard E r w)))
      as [pl|] eqn:Hnth.
    + assert (Hlt : (fst (pick_shard E r w) < length (reader_pools r))%nat)
        by (apply nth_error_Some; congruence).
      unfold Pool_Get. destruct (pool_idle pl) as [|p rest] eqn:Hidle.
      * destruct (pool_New pl _) as [[[q|]|e] w2]; cbn [fst snd set_pool
          reader_pools];
          (split; [apply list_set_length|];
           split; [intros i Hi; now apply list_set_other|];
           intros ? ? ? _ Hpl; congruence).
      * cbn [fst snd set_pool reader_pools].
        split; [apply list_set_length|].
        split; [intros i Hi; now apply list_set_other|].
        intros pl0 p0 rest0 _ Hpl Hp0. injection Hpl as <-.
        rewrite Hidle in Hp0. injection Hp0 as <- <-.
        eexists. split; [now apply list_set_same|].
        split; [apply prng_Read_config | apply prng_Read_cipher].
    + cbn [fst snd]. split; [reflexivity|]. split; [reflexivity|].
      congruence.
Qed.

Lemma reader_Read_touches_one_shard_witness :
  exists p',
    nth_error (reader_pools (snd (fst (fst
      (reader_Read sample_env_ok
         {| reader_config := None;
            reader_pools :=
              [{| pool_idle := [sample_rotating_prng];
                  pool_New := NewReader_New sample_env_ok
                                (DefaultConfig 4) |}] |}
         [x00] sample_world))))) 0 =
    Some {| pool_idle := [p'];
            pool_New := NewReader_New sample_env_ok (DefaultConfig 4) |} /\
    prng_cipher p' = 0%nat.
Proof.
  destruct (proj2 (proj2 (reader_Read_touches_one_shard sample_env_ok
              {| reader_config := None;
                 reader_pools :=
                   [{| pool_idle := [sample_rotating_prng];
                       pool_New := NewReader_New sample_env_ok
                                     (DefaultConfig 4) |}] |}
              [x00] sample_world))
              {| pool_idle := [sample_rotating_prng];
                 pool_New := NewReader_New sample_env_ok (DefaultConfig 4) |}
              sample_rotating_prng [])
    as (p' & Hn & _ & Hc); try reflexivity; try discriminate.
  exists p'. split; [exact Hn | exact Hc].
Defined.

(** A [Read] of the reader that finds an idle generator in every pool
    draws no system entropy and creates no cipher, and it asks the shard
    generator once, or not at all when there is a single pool or the buffer
    is empty. *)
Theorem reader_Read_uses_no_entropy (E : Env) (r : reader) (b : list byte)
  (w : World) :
  pools_ready r ->
  let w' := snd (reader_Read E r b w) in
  rand_reads w' = rand_reads w /\
  heap_next w' = heap_next w /\
  mrand_calls w' =
    (mrand_calls w +
     if (1 <? length (reader_pools r))%nat && negb (length b =? 0)%nat
     then 1 else 0)%nat.
Proof.
  intros [Hne Hall]. cbv zeta. destruct b as [|b0 b'].
  - rewrite reader_Read_empty. cbn [snd length Nat.eqb negb].
    rewrite andb_false_r. repeat split; lia.
  - rewrite reader_Read_nonempty by discriminate. cbv zeta.
    pose proof (pick_shard_in_range E r w Hne) as Hlt.
    destruct (nth_error (reader_pools r) (fst (pick_shard E r w)))
      as [pl|] eqn:Hnth; [|apply nth_error_None in Hnth; lia].
    assert (Hidle : pool_idle pl <> []).
    { rewrite Forall_forall in Hall. apply Hall.
      eapply nth_error_In. exact Hnth. }
    unfold Pool_Get. destruct (pool_idle pl) as [|p rest]; [congruence|].
    cbn [fst snd].
    destruct (prng_Read_counters E p (b0 :: b') (snd (pick_shard E r w)))
      as (Hn & Hr & Hm).
    rewrite Hn, Hr, Hm. unfold pick_shard, shardIndex.
    cbn [length Nat.eqb negb]. rewrite andb_true_r.
    destruct (1 <? length (reader_pools r))%nat; cbn [snd rand_reads
      heap_next mrand_calls]; repeat split; lia.
Qed.

Lemma reader_Read_uses_no_entropy_witness :
  exists r w',
    NewReader sample_env_ok [WithShards 3] world0 = (Returned (inl r), w') /\
    rand_reads (snd (reader_Read sample_env_ok r [x00; x01] w')) =
    rand_reads w'.
Proof.
  destruct (NewReader_succeeds sample_env_ok [WithShards 3] world0
              sample_factory_ok) as (r & w' & H & Hready); [reflexivity|].
  exists r, w'. split; [exact H|].
  exact (proj1 (reader_Read_uses_no_entropy sample_env_ok r [x00; x01] w'
                  Hready)).
Defined.

(** [syncPoolGetPut] on a reader whose pool 0 holds an idle generator
    returns normally and leaves the reader and the world exactly as they
    were. *)
Theorem syncPoolGetPut_round_trip (r : reader) (w : World) (pl : Pool) :
  nth_error (reader_pools r) 0 = Some pl ->
  pool_idle pl <> [] ->
  syncPoolGetPut r w = (Returned tt, r, w).
Proof.
  intros Hnth Hidle. unfold syncPoolGetPut, Pool_Get. rewrite Hnth.
  destruct pl as [idle New]. cbn [pool_idle pool_New] in *.
  destruct idle as [|p rest]; [congruence|].
  unfold Pool_Put. cbn [pool_idle pool_New]. unfold set_pool.
  rewrite (list_set_id _ _ _ Hnth). now destruct r.
Qed.

Lemma syncPoolGetPut_round_trip_witness :
  syncPoolGetPut
    {| reader_config := None;
       reader_pools :=
         [{| pool_idle := [sample_rotating_prng];
             pool_New := NewReader_New sample_env_ok (DefaultConfig 4) |}] |}
    sample_world =
  (Returned tt,
   {| reader_config := None;
      reader_pools :=
        [{| pool_idle := [sample_rotating_prng];
            pool_New := NewReader_New sample_env_ok (DefaultConfig 4) |}] |},
   sample_world).
Proof.
  apply (syncPoolGetPut_round_trip _ _
           {| pool_idle := [sample_rotating_prng];
              pool_New := NewReader_New sample_env_ok (DefaultConfig 4) |}).
  - reflexivity.
  - discriminate.
Defined.

(** ** More on the rekey worker *)

Lemma newCipher_fresh (E : Env) (w : World) (a : nat) :
  fst (newCipher E w) = Some a ->
  a = heap_next w /\
  cipher_pos (heap (snd (newCipher E w)) a) = 0%nat /\
  length (cipher_key (heap (snd (newCipher E w)) a)) = 32%nat /\
  length (cipher_nonce (heap (snd (newCipher E w)) a)) = 24%nat.
Proof.
  unfold newCipher.
  pose proof (rand_ReadFull_world E KeySize w) as (_ & _ & N1).
  destruct (rand_ReadFull E KeySize w) as [[key|] w1]; [|discriminate].
  pose proof (rand_ReadFull_world E NonceSizeX w1) as (_ & _ & N2).
  destruct (rand_ReadFull E NonceSizeX w1) as [[nonce|] w2]; [|discriminate].
  unfold NewUnauthenticatedCipher.
  destruct (length key =? KeySize)%nat eqn:Hk; [|discriminate].
  destruct (length nonce =? NonceSizeX)%nat eqn:Hn; [|discriminate].
  cbn [andb fst snd heap_alloc log heap] in *. intros H. injection H as <-.
  rewrite N2, N1, Nat.eqb_refl. cbn [cipher_pos cipher_key cipher_nonce].
  apply Nat.eqb_eq in Hk, Hn. auto.
Qed.

Lemma rekey_loop_rotated (E : Env) (n : nat) :
  forall base M p w p' w',
    rekey_loop E n base M p w = (Rotated, p', w') ->
    (prng_cipher p < heap_next w)%nat ->
    prng_cipher p' = heap_next w /\
    cipher_pos (heap w' (heap_next w)) = 0%nat /\
    length (cipher_key (heap w' (heap_next w))) = 32%nat /\
    length (cipher_nonce (heap w' (heap_next w))) = 24%nat.
Proof.
  induction n as [|n IH]; intros base M p w p' w' H Hlt; [discriminate|].
  rewrite rekey_loop_step in H.
  pose proof (newCipher_fresh E w) as Hf.
  destruct (newCipher_world E w) as (_ & _ & _ & _ & Hc).
  destruct (newCipher E w) as [[stream|] w1]; cbn [fst snd] in *.
  - destruct (Hf stream eq_refl) as (-> & Hp & Hk & Hn).
    injection H as <- <-. cbn [prng_cipher set_usage set_cipher].
    split; [reflexivity|]. simpl.
    assert (Hne : (heap_next w =? prng_cipher p)%nat = false)
      by (apply Nat.eqb_neq; lia).
    rewrite Hne. auto.
  - destruct Hc as [_ Hnx].
    pose proof (rand_ReadFull_world E 8 w1) as (_ & _ & Nr).
    cbv zeta in H, Nr. rewrite <- Hnx, <- Nr.
    destruct (fst (rand_ReadFull E 8 w1)) as [b|].
    + destruct (uint64 base =? 0); [discriminate|].
      apply IH in H; [exact H|]. simpl. lia.
    + apply IH in H; [exact H|]. simpl. lia.
Qed.

(** After a rotation the generator's cipher is a new object, not the one
    that was just zeroed: it sits at the first free address, has a 32-byte
    key and a 24-byte nonce and stands at keystream position 0. *)
Theorem asyncRekey_installs_fresh_cipher (E : Env) (p : prng) (w : World) :
  (prng_cipher p < heap_next w)%nat ->
  fst (fst (asyncRekey E p w)) = Rotated ->
  let p' := snd (fst (asyncRekey E p w)) in
  let w' := snd (asyncRekey E p w) in
  prng_cipher p' = heap_next w /\
  prng_cipher p' <> prng_cipher p /\
  cipher_pos (heap w' (prng_cipher p')) = 0%nat /\
  length (cipher_key (heap w' (prng_cipher p'))) = 32%nat /\
  length (cipher_nonce (heap w' (prng_cipher p'))) = 24%nat.
Proof.
  intros Hlt. rewrite asyncRekey_unfold. cbv zeta.
  destruct (rekey_loop E _ _ _ p w) as [[e p1] w1] eqn:Hl.
  cbn [fst snd]. intros ->.
  destruct (rekey_loop_rotated E _ _ _ _ _ _ _ Hl Hlt) as (Hc & Hp & Hk & Hn).
  cbn [prng_cipher set_rekeying]. rewrite Hc. simpl.
  repeat split; auto. lia.
Qed.

Lemma asyncRekey_installs_fresh_cipher_witness :
  prng_cipher (snd (fst (asyncRekey sample_env_ok
                           (sample_prng (DefaultConfig 4)) sample_world))) =
  1%nat /\
  cipher_pos (heap (snd (asyncRekey sample_env_ok
                           (sample_prng (DefaultConfig 4)) sample_world))
                (prng_cipher (snd (fst (asyncRekey sample_env_ok
                                          (sample_prng (DefaultConfig 4))
                                          sample_world))))) = 0%nat.
Proof.
  destruct (asyncRekey_installs_fresh_cipher sample_env_ok
              (sample_prng (DefaultConfig 4)) sample_world)
    as (H1 & _ & H2 & _).
  - simpl. lia.
  - reflexivity.
  - split; [exact H1 | exact H2].
Defined.



(** With [RekeyBackoff] and the backoff bound in force both positive and
    below 2^62 ns, every sleep of the worker is at least the backoff of its
    attempt and less than twice it, hence positive and less than twice the
    larger of [RekeyBackoff] and the bound. *)
Theorem rekey_sleep_bounds (E : Env) (p : prng) (w : World) :
  let rb := RekeyBackoff (prng_config p) in
  let M := effective_max (prng_config p) in
  let evs := new_events w (snd (asyncRekey E p w)) in
  0 < rb < 2 ^ 62 -> 0 < M < 2 ^ 62 ->
  forall i d,
    nth_error (sleeps evs) i = Some d ->
    backoff_at rb M i <= d < 2 * backoff_at rb M i /\
    0 < d < 2 * Z.max rb M.
Proof.
  cbv zeta. intros Hrb HM i d. rewrite asyncRekey_unfold. cbv zeta.
  destruct (rekey_loop E _ _ _ p w) as [[e p1] w1] eqn:Hl.
  pose proof (rekey_loop_backoff E _ _ Hrb HM _ 0%nat _ _ _ _ _ Hl)
    as (evs & Te & _ & Hs).
  cbn [fst snd].
  rewrite (new_events_app w (log (EvStoreRekeying 0) w1)
             (evs ++ [EvStoreRekeying 0]))
    by (simpl; now rewrite Te, <- app_assoc).
  rewrite sleeps_app. cbn [sleeps flat_map app]. rewrite app_nil_r.
  intros Hd. destruct (Hs i d Hd) as (r & _ & ->). cbn [Nat.add].
  pose proof (backoff_at_bounds _ _ i Hrb HM) as Hb.
  assert (Hle : backoff_at (RekeyBackoff (prng_config p))
                  (effective_max (prng_config p)) i <=
                Z.max (RekeyBackoff (prng_config p))
                  (effective_max (prng_config p))).
  { destruct i; cbn [backoff_at]; lia. }
  set (B := backoff_at (RekeyBackoff (prng_config p))
              (effective_max (prng_config p)) i) in *.
  clearbody B. unfold delay_of. destruct r as [bs|].
  - pose proof (Z.mod_pos_bound (BigEndian_Uint64 bs) B ltac:(lia)). lia.
  - lia.
Qed.

Lemma rekey_sleep_bounds_witness :
  nth_error (sleeps (new_events sample_world
                       (snd (asyncRekey sample_env_short
                               (sample_prng (WithRekeyBackoff 10
                                               (DefaultConfig 4)))
                               sample_world)))) 1 = Some 35 /\
  0 < 35 < 2 * Z.max 10 (2 * Second).
Proof.
  split; [reflexivity|].
  apply (rekey_sleep_bounds sample_env_short
           (sample_prng (WithRekeyBackoff 10 (DefaultConfig 4)))
           sample_world ltac:(vm_compute; split; reflexivity)
           ltac:(vm_compute; split; reflexivity) 1%nat 35).
  reflexivity.
Defined.

(** A [Read] that takes [usage] over [MaxBytesPerKey] on a generator with
    key rotation enabled and no worker in flight starts the worker; when
    the cipher factory works and at least one attempt is allowed, that
    worker rotates at its first attempt, without sleeping: afterwards the
    generator holds another cipher than before the [Read], and [usage] and
    [rekeying] are 0. *)
Theorem Read_then_rekey_rotates (E : Env) (p : prng) (b : list byte)
  (w : World) :
  EnableKeyRotation (prng_config p) = true ->
  prng_rekeying p = 0 ->
  MaxBytesPerKey (prng_config p) <
    uint64 (prng_usage p + uint64 (Z.of_nat (length b))) ->
  0 < MaxRekeyAttempts (prng_config p) ->
  (forall w0, fst (newCipher E w0) <> None) ->
  (prng_cipher p < heap_next w)%nat ->
  b <> [] ->
  let p1 := snd (fst (fst (prng_Read E p b w))) in
  let w1 := snd (prng_Read E p b w) in
  let p2 := snd (fst (asyncRekey E p1 w1)) in
  let w2 := snd (asyncRekey E p1 w1) in
  new_events w w1 = [EvGo] /\
  fst (fst (asyncRekey E p1 w1)) = Rotated /\
  sleeps (new_events w1 w2) = [] /\
  prng_cipher p2 <> prng_cipher p /\
  prng_usage p2 = 0 /\ prng_rekeying p2 = 0.
Proof.
  intros Hrot Hrk Hover Hatt Hok Hlt Hb. cbv zeta.
  destruct (prng_Read_spawn E p b w) as [(Tr & _ & _) | (Tr & Hk)].
  - pose proof (prng_Read_config E p b w) as Hcfg.
    pose proof (prng_Read_cipher E p b w) as Hcip.
    destruct (prng_Read_counters E p b w) as (Hnx & _ & _).
    set (p1 := snd (fst (fst (prng_Read E p b w)))) in *.
    set (w1 := snd (prng_Read E p b w)) in *. clearbody p1 w1.
    split; [now apply new_events_app|].
    rewrite asyncRekey_unfold. cbv zeta. rewrite Hcfg.
    destruct (Z.to_nat (MaxRekeyAttempts (prng_config p))) as [|n] eqn:Hn;
      [lia|].
    rewrite rekey_loop_step.
    destruct (newCipher_world E w1) as (ec & Tc & Fc & _ & Hal).
    specialize (Hok w1).
    destruct (newCipher E w1) as [[stream|] w1']; [|now elim Hok].
    cbn [fst snd] in *. destruct Hal as (-> & _ & _).
    split; [reflexivity|].
    split.
    + rewrite (new_events_app w1 _
                 (ec ++ [EvStoreCipher (heap_next w1); EvStoreUsage 0;
                         EvZeroCipher (prng_cipher p1);
                         EvStoreRekeying 0])).
      * rewrite sleeps_app. now rewrite (proj1 (cipher_events_silent ec Fc)).
      * simpl. rewrite Tc, <- !app_assoc. reflexivity.
    + cbn [prng_cipher prng_usage prng_rekeying set_rekeying set_usage
           set_cipher].
      repeat split; lia.
  - exfalso.
    destruct (prng_Read_tracking E p b w Hb) as [Hp Hw].
    cbv zeta in Hp, Hw. rewrite Hw in Tr. revert Tr.
    set (p0 := if UseZeroBuffer (prng_config p)
               then set_zero (zero_for p (length b)) p else p).
    assert (Hc : prng_config p0 = prng_config p)
      by (subst p0; now destruct (UseZeroBuffer (prng_config p))).
    assert (Hu : prng_usage p0 = prng_usage p)
      by (subst p0; now destruct (UseZeroBuffer (prng_config p))).
    assert (Hr : prng_rekeying p0 = prng_rekeying p)
      by (subst p0; now destruct (UseZeroBuffer (prng_config p))).
    clearbody p0. unfold track_usage, AddUint64_usage.
    cbn [prng_config set_usage prng_usage prng_rekeying].
    rewrite Hc, Hrot, Hu, Hr, Hrk.
    apply Z.ltb_lt in Hover. rewrite Hover. cbn [Z.eqb snd log trace advance
      heap_set].
    intros Habs. apply (f_equal (@length Event)) in Habs.
    rewrite length_app in Habs. simpl in Habs. lia.
Qed.

Lemma Read_then_rekey_rotates_witness :
  fst (fst (asyncRekey sample_env_ok
              (snd (fst (fst (prng_Read sample_env_ok sample_rotating_prng
                                [x00; x00; x00; x00; x00] sample_world))))
              (snd (prng_Read sample_env_ok sample_rotating_prng
                      [x00; x00; x00; x00; x00] sample_world)))) = Rotated /\
  prng_usage (snd (fst (asyncRekey sample_env_ok
              (snd (fst (fst (prng_Read sample_env_ok sample_rotating_prng
                                [x00; x00; x00; x00; x00] sample_world))))
              (snd (prng_Read sample_env_ok sample_rotating_prng
                      [x00; x00; x00; x00; x00] sample_world))))) = 0.
Proof.
  destruct (Read_then_rekey_rotates sample_env_ok sample_rotating_prng
              [x00; x00; x00; x00; x00] sample_world)
    as (_ & H1 & _ & _ & H2 & _).
  - reflexivity.
  - reflexivity.
  - reflexivity.
  - reflexivity.
  - exact sample_factory_ok.
  - simpl. lia.
  - discriminate.
  - split; [exact H1 | exact H2].
Defined.

(** ** More on construction *)

(** When [MaxInitRetries] is zero or negative, [NewReader] returns the
    pool-initialization error without calling the cipher factory at all:
    the world is left untouched, whatever the entropy source would give. *)
Theorem NewReader_without_retries_fails (E : Env) (opts : list Option)
  (w : World) :
  MaxInitRetries (NewReader_config E opts) <= 0 ->
  NewReader E opts w =
  (Returned (inr (ErrPoolInit (MaxInitRetries (NewReader_config E opts)))),
   w).
Proof.
  intros Hle. rewrite NewReader_unfold. cbv zeta.
  pose proof (NewReader_config_shards E opts) as Hsh.
  set (cfg := NewReader_config E opts) in *. clearbody cfg.
  destruct (Z.to_nat (Shards cfg)) as [|n] eqn:Hn; [lia|].
  cbn [NewReader_pools]. unfold Pool_Get, NewReader_New.
  cbn [pool_idle pool_New].
  replace (Z.to_nat (MaxInitRetries cfg)) with 0%nat by lia.
  reflexivity.
Qed.

Lemma NewReader_without_retries_fails_witness :
  NewReader sample_env_ok [WithMaxInitRetries 0] world0 =
  (Returned (inr (ErrPoolInit 0)), world0).
Proof.
  apply (NewReader_without_retries_fails sample_env_ok
           [WithMaxInitRetries 0] world0).
  vm_compute. discriminate.
Defined.

Lemma newPRNG_alloc (E : Env) (cfg : Config) (w : World) :
  match newPRNG E cfg w with
  | (Some p, w1) =>
    prng_config p = cfg /\ prng_usage p = 0 /\ prng_rekeying p = 0 /\
    prng_cipher p = heap_next w /\ heap_next w1 = S (heap_next w)
  | (None, w1) => heap_next w1 = heap_next w
  end.
Proof.
  unfold newPRNG.
  destruct (newCipher_world E w) as (_ & _ & _ & _ & Hc).
  destruct (newCipher E w) as [[stream|] w1]; cbn [fst snd] in Hc.
  - destruct Hc as (-> & Hn & _). simpl. auto.
  - apply Hc.
Qed.

Lemma init_retries_alloc (E : Env) (n : nat) :
  forall cfg w,
    match init_retries E n cfg w with
    | (Some p, w1) =>
      prng_config p = cfg /\ prng_usage p = 0 /\ prng_rekeying p = 0 /\
      prng_cipher p = heap_next w /\ heap_next w1 = S (heap_next w)
    | (None, w1) => heap_next w1 = heap_next w
    end.
Proof.
  induction n as [|n IH]; intros cfg w; [reflexivity|].
  cbn [init_retries]. pose proof (newPRNG_alloc E cfg w) as H1.
  destruct (newPRNG E cfg w) as [[p|] w1]; [exact H1|].
  specialize (IH cfg w1).
  destruct (init_retries E n cfg w1) as [[p|] w2]; now rewrite <- H1.
Qed.

Lemma NoDup_snoc {A : Type} (l : list A) (a : A) :
  NoDup l -> ~ In a l -> NoDup (l ++ [a]).
Proof.
  induction 1 as [|x l Hx Hl IH]; intros Ha; simpl.
  - constructor; [tauto | constructor].
  - constructor.
    + rewrite in_app_iff. simpl in *. intros [H|[H|[]]]; [tauto|].
      subst. tauto.
    + apply IH. simpl in Ha. tauto.
Qed.

Lemma pool_ciphers_snoc (pools : list Pool) (pl : Pool) :
  pool_ciphers (pools ++ [pl]) =
  pool_ciphers pools ++ map prng_cipher (pool_idle pl).
Proof.
  unfold pool_ciphers. rewrite flat_map_app. simpl. now rewrite app_nil_r.
Qed.

Lemma NewReader_pools_independent (E : Env) (n : nat) :
  forall cfg made w pools w',
    NewReader_pools E n cfg made w = (Returned (inl pools), w') ->
    Forall (fun a => heap_next w - length made <= a < heap_next w)%nat
      (pool_ciphers made) ->
    NoDup (pool_ciphers made) ->
    Forall (fun pl => exists p, pool_idle pl = [p] /\ prng_config p = cfg /\
                                prng_usage p = 0 /\ prng_rekeying p = 0)
      made ->
    NoDup (pool_ciphers pools) /\
    Forall (fun a => heap_next w - length made <= a < heap_next w')%nat
      (pool_ciphers pools) /\
    Forall (fun pl => exists p, pool_idle pl = [p] /\ prng_config p = cfg /\
                                prng_usage p = 0 /\ prng_rekeying p = 0)
      pools.
Proof.
  induction n as [|n IH]; intros cfg made w pools w' H Hlt Hnd Hfr.
  - simpl in H. injection H as <- <-. auto.
  - cbn [NewReader_pools] in H. unfold Pool_Get, NewReader_New in H.
    cbn [pool_idle pool_New] in H.
    pose proof (init_retries_alloc E (Z.to_nat (MaxInitRetries cfg)) cfg w)
      as Ha.
    destruct (init_retries E _ cfg w) as [[item|] w1]; [|discriminate].
    destruct Ha as (Hc & Hu & Hr & Hci & Hnx).
    apply IH in H.
    + destruct H as (H1 & H2 & H3). split; [exact H1|]. split; [|exact H3].
      eapply Forall_impl; [|exact H2]. rewrite length_app. simpl.
      intros a Haa. lia.
    + rewrite pool_ciphers_snoc. cbn [Pool_Put pool_idle map].
      apply Forall_app. split.
      * eapply Forall_impl; [|exact Hlt]. rewrite length_app. simpl.
        intros a Haa. lia.
      * constructor; [|constructor]. rewrite length_app. simpl. lia.
    + rewrite pool_ciphers_snoc. cbn [Pool_Put pool_idle map].
      apply NoDup_snoc; [exact Hnd|]. intros Hin.
      rewrite Forall_forall in Hlt. apply Hlt in Hin. lia.
    + apply Forall_app. split; [exact Hfr|]. constructor; [|constructor].
      exists item. cbn [Pool_Put pool_idle]. auto.
Qed.

(** Whatever the options and the entropy source, a reader [NewReader]
    returns holds its final configuration and one pool per shard; each
    pool holds exactly one generator, which carries that configuration,
    has [usage] and [rekeying] 0 and a cipher created during the call; and
    no two generators share a cipher object. *)
Theorem NewReader_generators_are_independent (E : Env) (opts : list Option)
  (w : World) (r : reader) (w' : World) :
  NewReader E opts w = (Returned (inl r), w') ->
  let cfg := NewReader_config E opts in
  reader_config r = Some cfg /\
  Z.of_nat (length (reader_pools r)) = Shards cfg /\
  Forall (fun pl => exists p, pool_idle pl = [p] /\ prng_config p = cfg /\
                              prng_usage p = 0 /\ prng_rekeying p = 0)
    (reader_pools r) /\
  Forall (fun a => heap_next w <= a < heap_next w')%nat
    (pool_ciphers (reader_pools r)) /\
  NoDup (pool_ciphers (reader_pools r)).
Proof.
  intros H. cbv zeta. split; [exact (NewReader_config_kept E opts w r w' H)|].
  rewrite NewReader_unfold in H. cbv zeta in H.
  pose proof (NewReader_config_shards E opts) as Hsh.
  set (cfg := NewReader_config E opts) in *. clearbody cfg.
  destruct (NewReader_pools E (Z.to_nat (Shards cfg)) cfg [] w)
    as [[[pools|err]|e] w1] eqn:Hnp; try discriminate.
  injection H as <- <-. cbn [reader_pools].
  destruct (NewReader_pools_shape E _ _ _ _ _ _ Hnp) as (fresh & Hf & Hl & _).
  simpl in Hf. subst fresh.
  destruct (NewReader_pools_independent E _ _ _ _ _ _ Hnp
              (Forall_nil _) (NoDup_nil _) (Forall_nil _))
    as (Hnd & Hrange & Hfresh).
  split; [rewrite Hl; lia|]. split; [exact Hfresh|]. split; [|exact Hnd].
  eapply Forall_impl; [|exact Hrange]. simpl. intros a Ha. lia.
Qed.

Lemma NewReader_generators_are_independent_witness :
  exists r w',
    NewReader sample_env_ok [WithShards 3] world0 = (Returned (inl r), w') /\
    length (reader_pools r) = 3%nat /\
    NoDup (pool_ciphers (reader_pools r)).
Proof.
  destruct (NewReader_succeeds sample_env_ok [WithShards 3] world0
              sample_factory_ok) as (r & w' & H & _); [reflexivity|].
  exists r, w'. split; [exact H|].
  destruct (NewReader_generators_are_independent sample_env_ok
              [WithShards 3] world0 r w' H) as (_ & Hl & _ & _ & Hnd).
  split; [|exact Hnd]. change (Shards _) with 3 in Hl. lia.
Defined.

Lemma init_pools_vs_NewReader_pools (E : Env) (n : nat) :
  forall cfg made1 made2 w,
    map pool_idle made1 = map pool_idle made2 ->
    match init_pools E n cfg made1 w with
    | (Returned pools, w1) =>
      exists pools2,
        NewReader_pools E n cfg made2 w = (Returned (inl pools2), w1) /\
        map pool_idle pools2 = map pool_idle pools
    | (Panicked e, w1) =>
      e = PoolInitFailed (MaxInitRetries cfg) /\
      NewReader_pools E n cfg made2 w =
        (Returned (inr (ErrPoolInit (MaxInitRetries cfg))), w1)
    end.
Proof.
  induction n as [|n IH]; intros cfg made1 made2 w Hm.
  - simpl. exists made2. split; [reflexivity | now symmetry].
  - cbn [init_pools NewReader_pools].
    unfold Pool_Get, init_New, NewReader_New. cbn [pool_idle pool_New].
    destruct (init_retries E _ cfg w) as [[item|] w1].
    + apply IH. rewrite !map_app, Hm. reflexivity.
    + split; reflexivity.
Qed.

(** [init] and [NewReader] without options build the same pools from the
    same world: when [init] returns, [NewReader()] returns a reader whose
    pools hold the same generators and leaves the same world, the reader of
    [NewReader] holding the default configuration that the reader of [init]
    lacks; and when [init] panics, it does so with the failure of the pool
    initialization, where [NewReader()] returns its error. *)
Theorem init_builds_what_NewReader_builds (E : Env) (w : World) :
  match init E w with
  | (Returned r, w1) =>
    exists r2,
      NewReader E [] w = (Returned (inl r2), w1) /\
      map pool_idle (reader_pools r2) = map pool_idle (reader_pools r) /\
      reader_config r2 = Some (DefaultConfig (Z.pos (GOMAXPROCS E))) /\
      reader_config r = None
  | (Panicked e, w1) =>
    e = PoolInitFailed 3 /\
    NewReader E [] w = (Returned (inr (ErrPoolInit 3)), w1)
  end.
Proof.
  unfold init. rewrite NewReader_unfold. cbv zeta.
  assert (Hcfg : NewReader_config E [] = DefaultConfig (Z.pos (GOMAXPROCS E)))
    by reflexivity.
  rewrite Hcfg.
  pose proof (init_pools_vs_NewReader_pools E
                (Z.to_nat (Shards (DefaultConfig (Z.pos (GOMAXPROCS E)))))
                (DefaultConfig (Z.pos (GOMAXPROCS E))) [] [] w eq_refl) as H.
  destruct (init_pools E _ _ [] w) as [[pools|e] w1].
  - destruct H as (pools2 & -> & Hm). eexists. split; [reflexivity|].
    cbn [reader_pools reader_config]. auto.
  - destruct H as (-> & ->). split; reflexivity.
Qed.

(** When the cipher factory always fails, [init] panics after exactly
    three calls of it, all for the first shard. *)
Theorem init_panics_without_entropy (E : Env) (w : World) :
  (forall w0, fst (newCipher E w0) = None) ->
  fst (init E w) = Panicked (PoolInitFailed 3) /\
  attempts (new_events w (snd (init E w))) = 3%nat.
Proof.
  intros Hfail. unfold init.
  destruct (Z.to_nat (Shards (DefaultConfig (Z.pos (GOMAXPROCS E)))))
    as [|n] eqn:Hn; [simpl in Hn; lia|].
  cbn [init_pools]. unfold Pool_Get, init_New. cbn [pool_idle pool_New].
  destruct (init_retries_fail E
              (Z.to_nat (MaxInitRetries (DefaultConfig
                                           (Z.pos (GOMAXPROCS E)))))
              Hfail (DefaultConfig (Z.pos (GOMAXPROCS E))) w)
    as (Hr & evs & Te & Ae).
  destruct (init_retries E _ _ w) as [[item|] w1]; [discriminate|].
  cbn [fst snd] in *. split; [reflexivity|].
  now rewrite (new_events_app _ _ _ Te), Ae.
Qed.

Lemma init_panics_without_entropy_witness :
  fst (init sample_env_dead world0) = Panicked (PoolInitFailed 3).
Proof.
  apply (init_panics_without_entropy sample_env_dead world0).
  intros w0. reflexivity.
Defined.

(** ** The benchmark helpers *)

Lemma digit_byte_value (d : Z) :
  0 <= d < 10 -> byte_to_Z (digit_byte d) = 48 + d.
Proof.
  intros H.
  assert (Hd : d = 0 \/ d = 1 \/ d = 2 \/ d = 3 \/ d = 4 \/ d = 5 \/ d = 6 \/
               d = 7 \/ d = 8 \/ d = 9) by lia.
  repeat (destruct Hd as [-> | Hd]; [reflexivity|]). subst. reflexivity.
Qed.

Lemma parse_decimal_snoc (ds : list byte) (d : byte) :
  parse_decimal (ds ++ [d]) = parse_decimal ds * 10 + (byte_to_Z d - 48).
Proof. unfold parse_decimal. now rewrite fold_left_app. Qed.

Lemma skipn_list_set {A : Type} (l : list A) (i : nat) (x : A) :
  (i < length l)%nat ->
  skipn i (list_set l i x) = x :: skipn (S i) l /\
  length (list_set l i x) = length l.
Proof.
  revert i. induction l as [|h t IH]; intros [|i] H; simpl in *; try lia.
  - auto.
  - destruct (IH i ltac:(lia)) as [H1 H2]. rewrite H2. auto.
Qed.

(** The loop writes the decimal digits of [i] in front of what the buffer
    holds from [pos] on. *)
Lemma itoa_loop_digits (pos : nat) :
  forall i buf,
    0 <= i < 10 ^ Z.of_nat pos -> (pos <= length buf)%nat ->
    exists pos' buf' ds,
      itoa_loop pos i buf = Returned (pos', buf') /\
      skipn pos' buf' = ds ++ skipn pos buf /\
      parse_decimal ds = i /\ Forall is_digit ds /\
      (length ds <= pos)%nat /\
      (0 < i -> byte_to_Z (hd x00 ds) <> 48) /\
      (i = 0 -> ds = []).
Proof.
  induction pos as [|pos IH]; intros i buf Hi Hlen.
  - assert (i = 0) as -> by (simpl in Hi; lia).
    exists 0%nat, buf, []. simpl. repeat split; auto; lia.
  - cbn [itoa_loop]. destruct (Z.ltb_spec 0 i) as [Hpos|Hz].
    + rewrite Z.quot_div_nonneg, Z.rem_mod_nonneg by lia.
      destruct (skipn_list_set buf pos (digit_byte (i mod 10)) ltac:(lia))
        as [Hsk Hl].
      assert (Hq : 0 <= i / 10 < 10 ^ Z.of_nat pos).
      { split; [apply Z.div_pos; lia|].
        apply Z.div_lt_upper_bound; [lia|].
        rewrite Nat2Z.inj_succ, Z.pow_succ_r in Hi by lia. lia. }
      destruct (IH (i / 10) (list_set buf pos (digit_byte (i mod 10))) Hq
                  ltac:(lia))
        as (pos' & buf' & ds & Hr & Hs & Hp & Hd & Hn & Hlead & Hzero).
      pose proof (Z.mod_pos_bound i 10 ltac:(lia)) as Hm.
      pose proof (digit_byte_value (i mod 10) Hm) as Hv.
      exists pos', buf', (ds ++ [digit_byte (i mod 10)]).
      split; [exact Hr|].
      split; [now rewrite Hs, Hsk, <- app_assoc|].
      split.
      { rewrite parse_decimal_snoc, Hp, Hv.
        pose proof (Z.div_mod i 10 ltac:(lia)). lia. }
      split.
      { apply Forall_app. split; [exact Hd|]. constructor; [|constructor].
        unfold is_digit. lia. }
      split; [rewrite length_app; simpl; lia|].
      split; [|lia]. intros _.
      destruct (Z.eq_dec (i / 10) 0) as [H0|H0].
      * rewrite (Hzero H0). simpl. rewrite Hv.
        pose proof (Z.div_mod i 10 ltac:(lia)). lia.
      * specialize (Hlead ltac:(lia)).
        destruct ds as [|d0 ds]; [unfold parse_decimal in Hp; simpl in Hp; lia|].
        exact Hlead.
    + assert (i = 0) as -> by lia.
      exists (S pos), buf, []. simpl. repeat split; auto; lia.
Qed.

Lemma itoa_loop_overflow (pos : nat) :
  forall i buf,
    10 ^ Z.of_nat pos <= i -> itoa_loop pos i buf = Panicked IndexOutOfRange.
Proof.
  induction pos as [|pos IH]; intros i buf Hi.
  - simpl in *. destruct (Z.ltb_spec 0 i); [reflexivity | lia].
  - assert (Hp : 0 < 10 ^ Z.of_nat (S pos)) by (apply Z.pow_pos_nonneg; lia).
    cbn [itoa_loop]. destruct (Z.ltb_spec 0 i); [|lia].
    apply IH. rewrite Z.quot_div_nonneg by lia.
    apply Z.div_le_lower_bound; [lia|].
    rewrite Nat2Z.inj_succ, Z.pow_succ_r in Hi by lia. lia.
Qed.

(** For [0 <= i < 10^12], [itoa] returns the decimal representation of
    [i]: a string of one to twelve digits, without a leading zero unless
    [i] is 0, whose value is [i]. *)
Theorem itoa_decimal_round_trip (i : Z) :
  0 <= i < 10 ^ 12 ->
  exists s,
    itoa i = Returned s /\ parse_decimal s = i /\
    Forall is_digit s /\ (1 <= length s <= 12)%nat /\
    (0 < i -> byte_to_Z (hd x00 s) <> 48).
Proof.
  intros Hi. unfold itoa. destruct (Z.eqb_spec i 0) as [->|Hne].
  - exists [x30]. split; [reflexivity|]. split; [reflexivity|].
    split; [|split; [simpl; lia | lia]].
    constructor; [|constructor]. unfold is_digit. vm_compute.
    split; discriminate.
  - destruct (itoa_loop_digits 12 i (make_bytes 12))
      as (pos' & buf' & ds & Hr & Hs & Hp & Hd & Hn & Hlead & _).
    + exact Hi.
    + simpl. lia.
    + rewrite Hr. exists ds. change (skipn 12 (make_bytes 12)) with
        (@nil byte) in Hs. rewrite app_nil_r in Hs. rewrite Hs.
      split; [reflexivity|]. split; [exact Hp|]. split; [exact Hd|].
      split; [|exact Hlead].
      split; [|exact Hn].
      destruct ds; [unfold parse_decimal in Hp; simpl in Hp; lia | simpl; lia].
Qed.

Lemma itoa_decimal_round_trip_witness :
  exists s, itoa 128 = Returned s /\ parse_decimal s = 128.
Proof.
  destruct (itoa_decimal_round_trip 128) as (s & H1 & H2 & _); [lia|].
  exists s. split; assumption.
Defined.

(** Outside that range [itoa] does not give a representation: for a
    negative argument it returns the empty string, and from 10^12 on, the
    thirteenth digit falls off the 12-byte buffer and the call panics. *)
Theorem itoa_out_of_range (i : Z) :
  (i < 0 -> itoa i = Returned []) /\
  (10 ^ 12 <= i -> itoa i = Panicked IndexOutOfRange).
Proof.
  split; intros H; unfold itoa.
  - destruct (Z.eqb_spec i 0); [lia|]. cbn [itoa_loop].
    destruct (Z.ltb_spec 0 i); [lia|]. reflexivity.
  - destruct (Z.eqb_spec i 0); [lia|].
    now rewrite (itoa_loop_overflow 12 i (make_bytes 12) H).
Qed.

Lemma itoa_out_of_range_witness :
  itoa (-7) = Returned [] /\ itoa (10 ^ 12) = Panicked IndexOutOfRange.
Proof.
  split.
  - apply (proj1 (itoa_out_of_range (-7))). lia.
  - apply (proj2 (itoa_out_of_range (10 ^ 12))). lia.
Defined.

Lemma sum_shares (q r : Z) (k : nat) :
  forall m,
    sum_Z (map (fun i => if i <? r then q + 1 else q)
               (map Z.of_nat (seq m k))) =
    Z.of_nat k * q + (Z.min r (Z.of_nat (m + k)) - Z.min r (Z.of_nat m)).
Proof.
  induction k as [|k IH]; intros m.
  - simpl. rewrite Nat.add_0_r. lia.
  - cbn [seq map sum_Z fold_right]. fold (sum_Z (map
      (fun i => if i <? r then q + 1 else q) (map Z.of_nat (seq (S m) k)))).
    rewrite IH. replace (S m + k)%nat with (m + S k)%nat by lia.
    destruct (Z.ltb_spec (Z.of_nat m) r); lia.
Qed.

(** [benchConcurrent] with a positive number of goroutines and [b.N >= 0]
    starts that many goroutines and hands them iteration counts that add
    up to [b.N] and differ by at most one: each is the quotient or the
    quotient plus one. With zero goroutines it divides by zero, and with a
    negative number it starts none. *)
Theorem benchConcurrent_shares (N g : Z) :
  (0 < g -> 0 <= N ->
   exists l,
     benchConcurrent N g = Returned l /\
     Z.of_nat (length l) = g /\ sum_Z l = N /\
     Forall (fun x => x = N / g \/ x = N / g + 1) l) /\
  (g = 0 -> benchConcurrent N g = Panicked DivideByZero) /\
  (g < 0 -> benchConcurrent N g = Returned []).
Proof.
  unfold benchConcurrent. split; [|split].
  - intros Hg HN. destruct (Z.eqb_spec g 0); [lia|].
    rewrite Z.quot_div_nonneg, Z.rem_mod_nonneg by lia.
    eexists. split; [reflexivity|].
    pose proof (Z.mod_pos_bound N g Hg) as Hm.
    split; [rewrite !length_map, length_seq; lia|].
    split.
    + rewrite sum_shares. rewrite Nat.add_0_l, Z2Nat.id by lia.
      pose proof (Z.div_mod N g ltac:(lia)). simpl Z.of_nat. nia.
    + apply Forall_forall. intros x Hx. apply in_map_iff in Hx.
      destruct Hx as (i & <- & _). destruct (i <? N mod g); auto.
  - intros ->. reflexivity.
  - intros Hg. destruct (Z.eqb_spec g 0); [lia|].
    destruct g; try lia. reflexivity.
Qed.

Lemma benchConcurrent_shares_witness :
  exists l,
    benchConcurrent 10 4 = Returned l /\ sum_Z l = 10 /\
    benchConcurrent 10 0 = Panicked DivideByZero /\
    benchConcurrent 10 (-2) = Returned [].
Proof.
  destruct (proj1 (benchConcurrent_shares 10 4)) as (l & H1 & _ & H2 & _);
    try lia.
  exists l. split; [exact H1|]. split; [exact H2|]. split.
  - apply (proj1 (proj2 (benchConcurrent_shares 10 0))). reflexivity.
  - apply (proj2 (proj2 (benchConcurrent_shares 10 (-2)))). lia.
Defined.
